(** * domain-recon: the hostname pipeline and the resolution batch

    A shallow embedding of [cmd/main.go]: the extraction of hostnames from
    certificate records ([getResolvableDomains], [cleanDomainNames],
    [partitionDomains]), the wildcard expansion ([extendWildcardDomains],
    [computeDifference]) and the printing of resolved hostnames
    ([printDomains], [printReachableDomains], [lookUpDns]).

    Go strings are byte sequences: they are modelled by [string], whose
    characters are the 256 byte values.  A [map[string]bool] is a
    [gmap string bool]. *)

From Stdlib Require Import Ascii.
From stdpp Require Import gmap strings list fin_maps relations sorting.

Local Open Scope char_scope.
Local Open Scope stdpp_scope.

(** ** The functions of Go's [strings] package used by the program *)

Module strings.

(** [strings.HasPrefix]: [s] begins with [prefix] *)
Fixpoint HasPrefix (s prefix : string) : bool :=
  match prefix, s with
  | EmptyString, _ => true
  | String _ _, EmptyString => false
  | String p prefix', String c s' =>
      if decide (c = p) then HasPrefix s' prefix' else false
  end.

(** [strings.Index]: the index of the first instance of [substr] in [s];
    Go's [-1] is [None]. *)
Fixpoint Index (s substr : string) : option nat :=
  if HasPrefix s substr then Some 0
  else match s with
       | EmptyString => None
       | String _ s' => S <$> Index s' substr
       end.

(** the slices [s[:n]] and [s[n:]] *)
Fixpoint slice_to (n : nat) (s : string) : string :=
  match n, s with
  | S n', String c s' => String c (slice_to n' s')
  | _, _ => EmptyString
  end.

Fixpoint slice_from (n : nat) (s : string) : string :=
  match n, s with
  | S n', String _ s' => slice_from n' s'
  | _, _ => s
  end.

(** [strings.Split] for a non-empty separator (the loop of [genSplit] with
    [n < 0]): cut at every instance of [sep].  The loop runs at most
    [Count(s, sep)] times, which [length s] bounds. *)
Fixpoint genSplit (fuel : nat) (s sep : string) : list string :=
  match fuel with
  | 0 => [s]
  | S fuel' =>
      match Index s sep with
      | None => [s]
      | Some m =>
          slice_to m s :: genSplit fuel' (slice_from (m + String.length sep) s) sep
      end
  end.

Definition Split (s sep : string) : list string :=
  genSplit (String.length s) s sep.

(** [strings.Replace] for a non-empty [old]: the first [n] instances of
    [old] are replaced by [new]; a negative [n] (no limit) does not occur
    in the program. *)
Fixpoint Replace (s old new : string) (n : nat) : string :=
  match n with
  | 0 => s
  | S n' =>
      if decide (old = new) then s
      else match Index s old with
           | None => s
           | Some j =>
               slice_to j s +:+ new +:+
               Replace (slice_from (j + String.length old) s) old new n'
           end
  end.

(** White space as [unicode.IsSpace] has it, each rune in its UTF-8
    encoding: the six ASCII characters, U+0085, U+00A0, U+1680,
    U+2000..U+200A, U+2028, U+2029, U+202F, U+205F and U+3000.  Go's
    decoder yields a rune only from its shortest encoding, and every
    other byte sequence decodes to U+FFFD, which is not white space. *)
Definition rune1 (a : ascii) : string := String a "".
Definition rune2 (a b : ascii) : string := String a (rune1 b).
Definition rune3 (a b c : ascii) : string := String a (rune2 b c).

Definition spaceRunes : list string :=
  [ rune1 "009"; rune1 "010"; rune1 "011"; rune1 "012"; rune1 "013"; rune1 " ";
    rune2 "194" "133"; rune2 "194" "160";
    rune3 "225" "154" "128";
    rune3 "226" "128" "128"; rune3 "226" "128" "129"; rune3 "226" "128" "130";
    rune3 "226" "128" "131"; rune3 "226" "128" "132"; rune3 "226" "128" "133";
    rune3 "226" "128" "134"; rune3 "226" "128" "135"; rune3 "226" "128" "136";
    rune3 "226" "128" "137"; rune3 "226" "128" "138";
    rune3 "226" "128" "168"; rune3 "226" "128" "169"; rune3 "226" "128" "175";
    rune3 "226" "129" "159";
    rune3 "227" "128" "128" ].

(** [strings.CutPrefix] *)
Fixpoint CutPrefix (s prefix : string) {struct prefix} : option string :=
  match prefix, s with
  | EmptyString, _ => Some s
  | String _ _, EmptyString => None
  | String p prefix', String c s' =>
      if decide (c = p) then CutPrefix s' prefix' else None
  end.

(** the rest of [s] after one leading rune of [runes], if it has one *)
Fixpoint cutRune (runes : list string) (s : string) : option string :=
  match runes with
  | [] => None
  | r :: runes' =>
      match CutPrefix s r with
      | Some rest => Some rest
      | None => cutRune runes' s
      end
  end.

(** drop leading runes of [runes]; each round drops at least one byte *)
Fixpoint trimRunes (fuel : nat) (runes : list string) (s : string) : string :=
  match fuel with
  | 0 => s
  | S fuel' =>
      match cutRune runes s with
      | Some rest => trimRunes fuel' runes rest
      | None => s
      end
  end.

Definition TrimLeftSpace (s : string) : string :=
  trimRunes (String.length s) spaceRunes s.

(** A string ends with a white-space rune exactly when its reversal begins
    with the reversed encoding of one ([utf8.DecodeLastRuneInString] walks
    back to the nearest start byte and decodes from there). *)
Definition TrimRightSpace (s : string) : string :=
  String.rev
    (trimRunes (String.length s) (String.rev <$> spaceRunes) (String.rev s)).

(** [strings.TrimSpace]: leading and trailing white space removed *)
Definition TrimSpace (s : string) : string :=
  TrimRightSpace (TrimLeftSpace s).

End strings.

Definition nl : string := String "010" "".

(** ** Descriptions used in the statements and proofs *)

(** the byte [c] occurs in [s] *)
Fixpoint occurs (c : ascii) (s : string) : bool :=
  match s with
  | EmptyString => false
  | String a s' => if decide (a = c) then true else occurs c s'
  end.

(** the pieces of [s] between the occurrences of the byte [c] *)
Fixpoint splitByte (c : ascii) (s : string) : list string :=
  match s with
  | EmptyString => [""]
  | String a s' =>
      if decide (a = c) then "" :: splitByte c s'
      else match splitByte c s' with
           | piece :: pieces => String a piece :: pieces
           | [] => [String a ""]
           end
  end.

(** a string made of runes of [runes] only *)
Inductive runesOnly (runes : list string) : string → Prop :=
  | runesOnly_nil : runesOnly runes ""
  | runesOnly_cons r s :
      r ∈ runes → runesOnly runes s → runesOnly runes (r +:+ s).

(** ** Data *)

(** command line arguments after parsing *)
Record Opts := {
  Verbose : list bool;
  Plain : bool;
  Domain : string;
  File : string
}.

(** one certificate returned from crt.sh *)
Record Certificate := {
  IssuerCaId : Z;
  IssuerName : string;
  CommonName : string;
  NameValue : string;
  Id : Z;
  EntryTimestamp : string;
  NotBefore : string;
  NotAfter : string;
  SerialNumber : string
}.

(** ** The file system *)

(** the errors of a failed read and of a failed look-up *)
Inductive error :=
  | PathError (Op Path : string)
  | DNSError (Name : string).

(** The files that can be read, with their contents, and the paths the program
    has passed to [ioutil.ReadFile] so far. *)
Record World := {
  files : gmap string string;
  readLog : list string
}.

Definition IO (A : Type) : Type := World → A * World.

Global Instance IO_ret : MRet IO := λ A a w, (a, w).
Global Instance IO_bind : MBind IO :=
  λ A B k c w, let '(a, w') := c w in k a w'.

Module ioutil.
(** [ioutil.ReadFile]: the content and a nil error, or an error *)
Definition ReadFile (filename : string) : IO (string * option error) :=
  λ w,
    let w' := {| files := files w; readLog := readLog w ++ [filename] |} in
    match files w !! filename with
    | Some content => ((content, None), w')
    | None => (("", Some (PathError "open" filename)), w')
    end.
End ioutil.

(** ** The pipeline *)

(** [append(xs, x)] *)
Definition append {A} (xs : list A) (x : A) : list A := xs ++ [x].

Definition cleanDomainNames (domains : list string) : list string :=
  foldl (λ cleanDomains domain, append cleanDomains (strings.TrimSpace domain))
        [] domains.

Definition partitionDomains (domains : list string) : list string * list string :=
  foldl (λ '(wildCards, nonWildCards) domain,
           if strings.HasPrefix domain "*"
           then (append wildCards domain, nonWildCards)
           else (wildCards, append nonWildCards domain))
        ([], []) domains.

(** the first loop of [extendWildcardDomains]: the words of the file *)
Definition parseWords (content : string) : list string :=
  foldl (λ words line, append words (strings.TrimSpace line))
        [] (strings.Split content nl).

Definition extendWildcardDomains (domains : list string) (wordsPath : string)
  : IO (list string * option error) :=
  '(content, err) ← ioutil.ReadFile wordsPath;
  match err with
  | Some e => mret ([], Some e)
  | None =>
      let words := parseWords content in
      let potentialDomains :=
        foldl (λ potentialDomains domain,
                 foldl (λ potentialDomains word,
                          append potentialDomains
                                 (strings.Replace domain "*" word 1))
                       potentialDomains words)
              [] domains in
      mret (potentialDomains, None)
  end.

Definition computeDifference (domains potentialDomains : list string)
  : list string :=
  let nonWild : gmap string bool :=
    foldl (λ nonWild domain, <[domain := true]> nonWild) ∅ domains in
  foldl (λ uniqPotentialDomains domain,
           if decide (is_Some (nonWild !! domain))
           then uniqPotentialDomains
           else append uniqPotentialDomains domain)
        [] potentialDomains.

(** the map [uniqDomains] when the loop over the certificates ends *)
Definition uniqDomains (certificates : list Certificate) : gmap string bool :=
  foldl (λ uniqDomains cert,
           foldl (λ uniqDomains nameValue, <[nameValue := true]> uniqDomains)
                 (<[CommonName cert := true]> uniqDomains)
                 (strings.Split (NameValue cert) nl))
        ∅ certificates.

Section Pipeline.

(** [maps.Keys]: the keys of a map "in an indeterminate order" *)
Variable mapsKeys : gmap string bool → list string.

(** the extraction, with which [getResolvableDomains] begins: the wildcard
    and the concrete hostnames of the certificates *)
Definition extractDomains (certificates : list Certificate)
  : list string * list string :=
  partitionDomains (cleanDomainNames (mapsKeys (uniqDomains certificates))).

Definition getResolvableDomains (certificates : list Certificate) (opts : Opts)
  : IO (list string * list string) :=
  let '(wildCardDomains, domains) := extractDomains certificates in
  let uniqPotentialDomains : list string := [] in
  if decide (0 < String.length (File opts)) then
    '(potentialDomains, err) ← extendWildcardDomains wildCardDomains (File opts);
    match err with
    | None =>
        mret (domains,
                uniqPotentialDomains ++ computeDifference domains potentialDomains)
    | Some _ => mret (domains, uniqPotentialDomains)
    end
  else mret (domains, uniqPotentialDomains).

End Pipeline.

(** ** Resolution and printing *)

Module Resolver.
Section Resolver.

(** [net.IP], and its [String] method, which [%s] prints an address with *)
Variable IP : Type.
Variable IP_String : IP → string.

(** [net.LookupIP]: the addresses of a host, or an error *)
Variable LookupIP : string → list IP * option error.

Record DNSLookupResult := { Domain : string; Ips : list IP }.

(** what one [lookUpDns] sends: a result on [ch], or the domain on [errCh] *)
Definition outcome : Type := DNSLookupResult + string.

Definition lookUpDns (domain : string) : outcome :=
  let '(ips, err) := LookupIP domain in
  match err with
  | Some _ => inr domain
  | None => inl {| Domain := domain; Ips := ips |}
  end.

(** [%s] of a [[]net.IP]: the addresses between brackets, a space apart *)
Definition fmt_Ips (ips : list IP) : string :=
  "[" +:+ String.concat " " (IP_String <$> ips) +:+ "]".

(** the string the [select] prints for a result received from [ch] *)
Definition line (plain : bool) (resp : DNSLookupResult) : string :=
  if plain then Domain resp +:+ nl
  else Domain resp +:+ " - IPs: " +:+ fmt_Ips (Ips resp) +:+ nl.

(** A call of [printReachableDomains] in progress: the domains the first
    loop has still to launch a goroutine for, the domains of the goroutines
    that have not sent yet, the contents of the two buffered channels, the
    iterations the second loop has still to run, and what was printed.
    [received] is the history of the values the [select] has received. *)
Record Batch := {
  todo : list string;
  running : list string;
  ch : list DNSLookupResult;
  errCh : list string;
  loops : nat;
  received : list outcome;
  stdout : list string
}.

(** One step of the main goroutine or of a [lookUpDns] goroutine; [cap] is
    the capacity of either channel, and a send waits while the channel is
    full. *)
Inductive step (plain : bool) (cap : nat) : Batch → Batch → Prop :=
  | step_go d ds run c e k rcv out :
      step plain cap
        {| todo := d :: ds; running := run; ch := c; errCh := e;
           loops := k; received := rcv; stdout := out |}
        {| todo := ds; running := run ++ [d]; ch := c; errCh := e;
           loops := k; received := rcv; stdout := out |}
  | step_send_ch ds run1 d run2 resp c e k rcv out :
      lookUpDns d = inl resp →
      length c < cap →
      step plain cap
        {| todo := ds; running := run1 ++ d :: run2; ch := c; errCh := e;
           loops := k; received := rcv; stdout := out |}
        {| todo := ds; running := run1 ++ run2; ch := c ++ [resp]; errCh := e;
           loops := k; received := rcv; stdout := out |}
  | step_send_errCh ds run1 d run2 failed c e k rcv out :
      lookUpDns d = inr failed →
      length e < cap →
      step plain cap
        {| todo := ds; running := run1 ++ d :: run2; ch := c; errCh := e;
           loops := k; received := rcv; stdout := out |}
        {| todo := ds; running := run1 ++ run2; ch := c; errCh := e ++ [failed];
           loops := k; received := rcv; stdout := out |}
  | step_recv_ch run resp c e k rcv out :
      step plain cap
        {| todo := []; running := run; ch := resp :: c; errCh := e;
           loops := S k; received := rcv; stdout := out |}
        {| todo := []; running := run; ch := c; errCh := e;
           loops := k; received := rcv ++ [inl resp];
           stdout := out ++ [line plain resp] |}
  | step_recv_errCh run failed c e k rcv out :
      step plain cap
        {| todo := []; running := run; ch := c; errCh := failed :: e;
           loops := S k; received := rcv; stdout := out |}
        {| todo := []; running := run; ch := c; errCh := e;
           loops := k; received := rcv ++ [inr failed]; stdout := out |}.

(** the call begins: two empty channels and every domain still to launch *)
Definition start (domain : list string) (out : list string) : Batch :=
  {| todo := domain; running := []; ch := []; errCh := [];
     loops := length domain; received := []; stdout := out |}.

(** the second loop has ended: the call returns *)
Definition returned (s : Batch) : Prop := todo s = [] ∧ loops s = 0.

Definition runs (domain : list string) (plain : bool) (out : list string)
  : Batch → Prop :=
  rtc (step plain (length domain)) (start domain out).

(** [printReachableDomains domain plain out out']: a call with [out] already
    printed can return with [out'] printed. *)
Definition printReachableDomains (domain : list string) (plain : bool)
    (out out' : list string) : Prop :=
  ∃ s, runs domain plain out s ∧ returned s ∧ stdout s = out'.

Definition header : string := nl +:+ "Extended domains:" +:+ nl.

Definition printDomains (domains extendedDomains : list string) (plain : bool)
    (out out' : list string) : Prop :=
  ∃ out1,
    printReachableDomains domains plain out out1 ∧
    if decide (0 < length extendedDomains) then
      printReachableDomains extendedDomains plain
        (if plain then out1 else out1 ++ [header]) out'
    else out' = out1.

(** *** Descriptions of a batch used in the statements *)

(** the lines printed for the values received, in the order received *)
Definition printed (plain : bool) (rcv : list outcome) : list string :=
  omap (λ o, match o with
             | inl resp => Some (line plain resp)
             | inr _ => None
             end) rcv.

(** the results of the domains whose look-up succeeds *)
Definition resolved (domain : list string) : list DNSLookupResult :=
  omap (λ d, match lookUpDns d with
             | inl resp => Some resp
             | inr _ => None
             end) domain.

(** the steps a batch has still to take *)
Definition stepsLeft (s : Batch) : nat :=
  2 * length (todo s) + length (running s) + loops s.

(** What holds of a batch throughout a call on [domain] that began with [out]
    printed: every outcome is in exactly one place, and the second loop has as
    many iterations left as there are outcomes it has not received. *)
Definition batchInv (domain : list string) (plain : bool) (out : list string)
    (s : Batch) : Prop :=
  length (todo s) + length (running s) + length (ch s) + length (errCh s) =
    loops s ∧
  loops s ≤ length domain ∧
  received s ++ (inl <$> ch s) ++ (inr <$> errCh s) ++
    (lookUpDns <$> running s) ++ (lookUpDns <$> todo s) ≡ₚ lookUpDns <$> domain ∧
  stdout s = out ++ printed plain (received s).

End Resolver.

Global Arguments Domain {IP} _.
Global Arguments Ips {IP} _.
Global Arguments Build_DNSLookupResult {IP} _ _.
Global Arguments Build_Batch {IP} _ _ _ _ _ _ _.
Global Arguments todo {IP} _.
Global Arguments running {IP} _.
Global Arguments ch {IP} _.
Global Arguments errCh {IP} _.
Global Arguments loops {IP} _.
Global Arguments received {IP} _.
Global Arguments stdout {IP} _.
Global Arguments lookUpDns {IP} LookupIP domain.
Global Arguments fmt_Ips {IP} IP_String ips.
Global Arguments line {IP} IP_String plain resp.
Global Arguments step {IP} IP_String LookupIP plain cap _ _.
Global Arguments start {IP} domain out.
Global Arguments returned {IP} s.
Global Arguments runs {IP} IP_String LookupIP domain plain out _.
Global Arguments printReachableDomains {IP} IP_String LookupIP domain plain out out'.
Global Arguments printDomains {IP} IP_String LookupIP domains extendedDomains plain out out'.
Global Arguments printed {IP} IP_String plain rcv.
Global Arguments resolved {IP} LookupIP domain.
Global Arguments stepsLeft {IP} s.
Global Arguments batchInv {IP} IP_String LookupIP domain plain out s.

(** a resolver that knows the hosts of a table, with the addresses in their
    textual form *)
Fixpoint hostsTable (table : list (string * list string)) (domain : string)
  : list string * option error :=
  match table with
  | [] => ([], Some (DNSError domain))
  | (host, ips) :: table' =>
      if decide (domain = host) then (ips, None) else hostsTable table' domain
  end.

End Resolver.

(** ** The request *)

(** The functions of Go's [net/url] package that [fetchResource] uses. *)
Module url.

(** [shouldEscape] in the mode [encodeQueryComponent]: letters, digits and
    [-], [_], [.], [~] are kept, every other byte is escaped. *)
Definition shouldEscape (c : ascii) : bool :=
  let n := nat_of_ascii c in
  if ((97 <=? n)%nat && (n <=? 122)%nat) ||
     ((65 <=? n)%nat && (n <=? 90)%nat) ||
     ((48 <=? n)%nat && (n <=? 57)%nat)
  then false
  else if bool_decide (c ∈ ["-"%char; "_"%char; "."%char; "~"%char]) then false
  else true.

Definition upperhex (n : nat) : ascii :=
  default "0"%char (String.get n "0123456789ABCDEF").

(** [url.QueryEscape]: a space becomes [+], a byte to escape becomes [%] and
    its two hexadecimal digits *)
Fixpoint QueryEscape (s : string) : string :=
  match s with
  | EmptyString => ""
  | String c s' =>
      if decide (c = " "%char) then String "+" (QueryEscape s')
      else if shouldEscape c then
        String "%" (String (upperhex (nat_of_ascii c / 16))
                      (String (upperhex (nat_of_ascii c mod 16)) (QueryEscape s')))
      else String c (QueryEscape s')
  end.

(** [url.Values.Add]: the value is appended to the values of the key *)
Definition Add (v : gmap string (list string)) (key value : string)
  : gmap string (list string) :=
  <[key := default [] (v !! key) ++ [value]]> v.

Section Encode.

(** the keys of the map in the order of [for k := range v] *)
Variable rangeKeys : gmap string (list string) → list string.

(** [url.Values.Encode]: the keys are sorted, and each value of each key is
    written as [key=value], escaped, with [&] between two of them *)
Definition Encode (v : gmap string (list string)) : string :=
  if decide (size v = 0) then ""
  else
    let keys := merge_sort String.le (rangeKeys v) in
    foldl (λ buf k,
             let vs := default [] (v !! k) in
             let keyEscaped := QueryEscape k in
             foldl (λ buf value,
                      (if decide (0 < String.length buf) then buf +:+ "&" else buf)
                        +:+ keyEscaped +:+ "=" +:+ QueryEscape value)
                   buf vs)
          "" keys.

End Encode.
End url.

Section Request.

(** the pairs of [params] in the order of [for key, value := range params],
    and the keys of the values in the order [Encode] ranges over them *)
Variable rangeParams : gmap string string → list (string * string).
Variable rangeKeys : gmap string (list string) → list string.

(** the beginning of [fetchResource]: the URL of the request *)
Definition requestURL (u : string) (params : gmap string string) : string :=
  let urlValues :=
    foldl (λ urlValues '(key, value), url.Add urlValues key value)
          ∅ (rangeParams params) in
  let encodedParams :=
    if decide (0 < size urlValues) then "?" +:+ url.Encode rangeKeys urlValues
    else "" in
  u +:+ encodedParams.

(** the parameters [execute] passes to [fetchResource] *)
Definition queryParams (opts : Opts) : gmap string string :=
  {[ "q" := Domain opts; "output" := "json"; "excluded" := "expired" ]}.

End Request.

(** ** The fetch and [execute] *)

Section Execute.

(** the errors of the HTTP client and of the JSON decoder *)
Variable Err : Type.

(** a response: what [io.ReadAll(resp.Body)] and [resp.Body.Close()] return *)
Record Response := {
  Body_ReadAll : string * option Err;
  Body_Close : option Err
}.

(** [client.Do] for a GET request of a URL, and [json.Unmarshal] into a slice
    of certificates *)
Variable client_Do : string → Response * option Err.
Variable Unmarshal : string → list Certificate * option Err.

(** where the goroutine of [fetchResource] is: before [client.Do], at
    [ch <- body], before [resp.Body.Close()], at [errorCh <- err] in
    [handleError], or at its end *)
Inductive Fetcher :=
  | FetchStart
  | FetchSendBody (resp : Response) (body : string)
  | FetchClose (resp : Response)
  | FetchSendErr (err : Err)
  | FetchEnd.

(** where [execute] is: at its [select], or in one of its two cases *)
Inductive Selector :=
  | Select
  | CaseResp (resp : string)
  | CaseErr (e : Err).

(** One step of the goroutine or of the two together: the channels have no
    buffer, so a send and the [select] that receives it are one step. *)
Inductive fetchStep (u : string) : Fetcher * Selector → Fetcher * Selector → Prop :=
  | fetch_do_err resp err m :
      client_Do u = (resp, Some err) →
      fetchStep u (FetchStart, m) (FetchSendErr err, m)
  | fetch_read resp body m :
      client_Do u = (resp, None) → Body_ReadAll resp = (body, None) →
      fetchStep u (FetchStart, m) (FetchSendBody resp body, m)
  | fetch_read_err resp body err m :
      client_Do u = (resp, None) → Body_ReadAll resp = (body, Some err) →
      fetchStep u (FetchStart, m) (FetchSendErr err, m)
  | receive_body resp body :
      fetchStep u (FetchSendBody resp body, Select) (FetchClose resp, CaseResp body)
  | receive_err err :
      fetchStep u (FetchSendErr err, Select) (FetchEnd, CaseErr err)
  | fetch_close resp m :
      Body_Close resp = None →
      fetchStep u (FetchClose resp, m) (FetchEnd, m)
  | fetch_close_err resp err m :
      Body_Close resp = Some err →
      fetchStep u (FetchClose resp, m) (FetchSendErr err, m).

(** *** Descriptions of the fetch used in the statements *)

(** the step a state can take, if any *)
Definition fetchNext (u : string) (st : Fetcher * Selector)
  : option (Fetcher * Selector) :=
  match st with
  | (FetchStart, m) =>
      let '(resp, err) := client_Do u in
      match err with
      | Some e => Some (FetchSendErr e, m)
      | None =>
          let '(body, err) := Body_ReadAll resp in
          match err with
          | Some e => Some (FetchSendErr e, m)
          | None => Some (FetchSendBody resp body, m)
          end
      end
  | (FetchSendBody resp body, Select) => Some (FetchClose resp, CaseResp body)
  | (FetchSendErr e, Select) => Some (FetchEnd, CaseErr e)
  | (FetchClose resp, m) =>
      match Body_Close resp with
      | Some e => Some (FetchSendErr e, m)
      | None => Some (FetchEnd, m)
      end
  | _ => None
  end.

(** the case the [select] of [execute] takes *)
Definition fetchOutcome (u : string) : Selector :=
  let '(resp, err) := client_Do u in
  match err with
  | Some e => CaseErr e
  | None =>
      let '(body, err) := Body_ReadAll resp in
      match err with
      | Some e => CaseErr e
      | None => CaseResp body
      end
  end.

(** where the goroutine of [fetchResource] stops *)
Definition fetchFinal (u : string) : Fetcher :=
  let '(resp, err) := client_Do u in
  match err with
  | Some _ => FetchEnd
  | None =>
      match Body_ReadAll resp, Body_Close resp with
      | (_, None), Some e => FetchSendErr e
      | _, _ => FetchEnd
      end
  end.

Variable rangeParams : gmap string string → list (string * string).
Variable rangeKeys : gmap string (list string) → list string.
Variable mapsKeys : gmap string bool → list string.
Variable IP : Type.
Variable IP_String : IP → string.
Variable LookupIP : string → list IP * option error.

(** [execute opts w out result]: a call of [execute] in the world [w], with
    [out] printed, can return the error, the world and the output [result]. *)
Definition execute (opts : Opts) (w : World) (out : list string)
    (result : option Err * World * list string) : Prop :=
  ∃ f m,
    rtc (fetchStep (requestURL rangeParams rangeKeys "https://crt.sh"
                      (queryParams opts)))
        (FetchStart, Select) (f, m) ∧
    match m with
    | Select => False
    | CaseErr e => result = (Some e, w, out)
    | CaseResp resp =>
        let '(certificates, err) := Unmarshal resp in
        match err with
        | Some e => result = (Some e, w, out ++ [resp +:+ nl])
        | None =>
            let '((domains, extendedDomains), w') :=
              getResolvableDomains mapsKeys certificates opts w in
            ∃ out',
              Resolver.printDomains IP_String LookupIP domains extendedDomains
                (Plain opts) out out' ∧
              result = (None, w', out')
        end
    end.

End Execute.

Global Arguments Body_ReadAll {Err} _.
Global Arguments Body_Close {Err} _.
Global Arguments Build_Response {Err} _ _.
Global Arguments FetchStart {Err}.
Global Arguments FetchSendBody {Err} resp body.
Global Arguments FetchClose {Err} resp.
Global Arguments FetchSendErr {Err} err.
Global Arguments FetchEnd {Err}.
Global Arguments Select {Err}.
Global Arguments CaseResp {Err} resp.
Global Arguments CaseErr {Err} e.
Global Arguments fetchStep {Err} client_Do u _ _.
Global Arguments fetchNext {Err} client_Do u st.
Global Arguments fetchOutcome {Err} client_Do u.
Global Arguments fetchFinal {Err} client_Do u.
Global Arguments execute {Err} client_Do Unmarshal rangeParams rangeKeys mapsKeys
  {IP} IP_String LookupIP opts w out result.

(** the results among the values a batch has received *)
Definition results {IP : Type} (rcv : list (Resolver.outcome IP))
  : list (Resolver.DNSLookupResult IP) :=
  omap (λ o, match o with inl resp => Some resp | inr _ => None end) rcv.

(** a server whose response can be read and closed, or read and not closed *)
Definition respond (body : string) (closeErr : option string)
    (u : string) : Response string * option string :=
  ({| Body_ReadAll := (body, None); Body_Close := closeErr |}, None).

(** a server that cannot be reached *)
Definition unreachable (u : string) : Response string * option string :=
  ({| Body_ReadAll := ("", None); Body_Close := None |}, Some "no route to host").

(** ** Descriptions of the pipeline, and test data *)

(** the raw candidates: every wildcard with every word, wildcard by wildcard *)
Definition candidates (domains words : list string) : list string :=
  domains ≫= (λ domain, (λ word, strings.Replace domain "*" word 1) <$> words).

(** the world after one more read *)
Definition logged (filename : string) (w : World) : World :=
  {| files := files w; readLog := readLog w ++ [filename] |}.

(** the same options without a word list *)
Definition withoutWordList (opts : Opts) : Opts :=
  {| Verbose := Verbose opts; Plain := Plain opts; Domain := Domain opts;
     File := "" |}.

(** one iteration order of a map: that of [map_to_list] *)
Definition keysInOrder (m : gmap string bool) : list string := (map_to_list m).*1.

Definition certificate (commonName nameValue : string) : Certificate :=
  {| IssuerCaId := 0; IssuerName := ""; CommonName := commonName;
     NameValue := nameValue; Id := 0; EntryTimestamp := ""; NotBefore := "";
     NotAfter := ""; SerialNumber := "" |}.

Definition options (file : string) : Opts :=
  {| Verbose := []; Plain := false; Domain := "example.com"; File := file |}.

Definition optionsFor (domain file : string) : Opts :=
  {| Verbose := []; Plain := false; Domain := domain; File := file |}.

Definition world (fs : list (string * string)) : World :=
  {| files := list_to_map fs; readLog := [] |}.

(** * Facts about the [strings] functions *)

Section StringFacts.
Import strings.
Local Arguments String.append !_ _ / : simpl nomatch.

Lemma string_app_nil_r (s : string) : s +:+ "" = s.
Proof. induction s as [|a s IH]; cbn; [done | by rewrite IH]. Qed.

Lemma string_app_assoc (s t u : string) : (s +:+ t) +:+ u = s +:+ t +:+ u.
Proof. induction s as [|a s IH]; cbn; [done | by rewrite IH]. Qed.

Lemma string_app_length (s t : string) :
  String.length (s +:+ t) = String.length s + String.length t.
Proof. induction s as [|a s IH]; cbn; [done | by rewrite IH]. Qed.

Lemma HasPrefix_byte (c : ascii) (s : string) :
  HasPrefix s (String c "") = true ↔ ∃ rest, s = String c rest.
Proof.
  destruct s as [|a s]; cbn.
  - split; [done | by intros [? ?]].
  - case_decide as Hac.
    + subst a. destruct s; cbn; (split; [eauto | done]).
    + split; [done | intros [r Hr]; congruence].
Qed.

Lemma Index_byte_absent (c : ascii) (s : string) :
  occurs c s = false → Index s (String c "") = None.
Proof.
  induction s as [|a s IH]; cbn; [done |].
  case_decide as Hac; [done |]. intros Hs. by rewrite IH.
Qed.

Lemma Index_byte_first (c : ascii) (pre post : string) :
  occurs c pre = false →
  Index (pre +:+ String c post) (String c "") = Some (String.length pre).
Proof.
  induction pre as [|a pre IH]; cbn.
  - intros _. case_decide; [by destruct post | done].
  - case_decide as Hac; [done |]. intros Hpre. by rewrite IH.
Qed.

(** [Index] finds the first occurrence, or there is none. *)
Lemma Index_byte_cases (c : ascii) (s : string) :
  (occurs c s = false ∧ Index s (String c "") = None) ∨
  (∃ pre post, s = pre +:+ String c post ∧ occurs c pre = false ∧
               Index s (String c "") = Some (String.length pre)).
Proof.
  induction s as [|a s IH].
  - by left.
  - destruct (decide (a = c)) as [->|Hac].
    + right. exists "", s. split_and!; [done..|].
      by apply (Index_byte_first c "" s).
    + destruct IH as [[Hno HI]|(pre & post & -> & Hpre & HI)].
      * left. split; [cbn; by case_decide |].
        apply Index_byte_absent. cbn. by case_decide.
      * right. exists (String a pre), post. split_and!; [done | |].
        -- cbn. by case_decide.
        -- apply (Index_byte_first c (String a pre) post). cbn. by case_decide.
Qed.

Lemma slice_to_app (pre t : string) : slice_to (String.length pre) (pre +:+ t) = pre.
Proof.
  induction pre as [|a pre IH]; cbn; [by destruct t | by rewrite IH].
Qed.

Lemma slice_from_app (pre t : string) (n : nat) :
  slice_from (String.length pre + n) (pre +:+ t) = slice_from n t.
Proof. induction pre as [|a pre IH]; cbn; [done | by rewrite IH]. Qed.

(** [Replace s "c" new 1] replaces the first [c] of [s] and nothing else *)
Lemma Replace_first (c : ascii) (pre post new : string) :
  occurs c pre = false →
  Replace (pre +:+ String c post) (String c "") new 1 = pre +:+ new +:+ post.
Proof.
  intros Hpre. cbn. case_decide as Hnew.
  - by subst new.
  - rewrite Index_byte_first by done.
    rewrite slice_to_app. by rewrite (slice_from_app pre (String c post) 1).
Qed.

Lemma Replace_absent (c : ascii) (s new : string) :
  occurs c s = false → Replace s (String c "") new 1 = s.
Proof.
  intros Hs. cbn. case_decide; [done |]. by rewrite Index_byte_absent.
Qed.

Lemma splitByte_absent (c : ascii) (s : string) :
  occurs c s = false → splitByte c s = [s].
Proof.
  induction s as [|a s IH]; cbn; [done |].
  case_decide; [done |]. intros Hs. by rewrite IH.
Qed.

Lemma splitByte_first (c : ascii) (pre post : string) :
  occurs c pre = false →
  splitByte c (pre +:+ String c post) = pre :: splitByte c post.
Proof.
  induction pre as [|a pre IH]; cbn.
  - intros _. by case_decide.
  - case_decide; [done |]. intros Hpre. by rewrite IH.
Qed.

Lemma splitByte_nonempty (c : ascii) (s : string) : splitByte c s ≠ [].
Proof.
  destruct s as [|a s]; cbn; [done |].
  case_decide; [done |]. by destruct (splitByte c s).
Qed.

Lemma splitByte_snoc (c : ascii) (s : string) :
  splitByte c (s +:+ String c "") = splitByte c s ++ [""].
Proof.
  induction s as [|a s IH]; cbn.
  - by case_decide.
  - case_decide; [by rewrite IH |].
    rewrite IH. pose proof (splitByte_nonempty c s).
    by destruct (splitByte c s).
Qed.

Lemma genSplit_splitByte (c : ascii) (fuel : nat) (s : string) :
  String.length s ≤ fuel → genSplit fuel s (String c "") = splitByte c s.
Proof.
  revert s. induction fuel as [|fuel IH]; intros s Hlen.
  - destruct s; [done | cbn in Hlen; lia].
  - cbn [genSplit].
    destruct (Index_byte_cases c s) as [[Hno ->]|(pre & post & -> & Hpre & ->)].
    + by rewrite splitByte_absent.
    + rewrite slice_to_app, slice_from_app.
      rewrite splitByte_first by done. cbn [slice_from String.length]. f_equal.
      apply IH. rewrite string_app_length in Hlen. cbn in Hlen. lia.
Qed.

(** [Split] at a one-byte separator, whatever the length of the string *)
Lemma Split_byte (c : ascii) (s : string) :
  Split s (String c "") = splitByte c s.
Proof. unfold Split. apply genSplit_splitByte. lia. Qed.

(** *** [TrimSpace]: the rounds of [trimRunes] suffice *)

Lemma string_rev_app_app (s t u : string) :
  String.rev_app s (t +:+ u) = String.rev_app s t +:+ u.
Proof. revert t. induction s as [|a s IH]; intros t; cbn; [done | apply (IH (String a t))]. Qed.

Lemma string_rev_cons (a : ascii) (s : string) :
  String.rev (String a s) = String.rev s +:+ String a "".
Proof. unfold String.rev. cbn. apply (string_rev_app_app s "" (String a "")). Qed.

Lemma string_rev_app (s t : string) : String.rev (s +:+ t) = String.rev t +:+ String.rev s.
Proof.
  induction s as [|a s IH].
  - by rewrite string_app_nil_r.
  - change (String a s +:+ t) with (String a (s +:+ t)).
    by rewrite !string_rev_cons, IH, string_app_assoc.
Qed.

Lemma string_rev_involutive (s : string) : String.rev (String.rev s) = s.
Proof.
  induction s as [|a s IH]; [done |]. by rewrite string_rev_cons, string_rev_app, IH.
Qed.

Lemma string_rev_length (s : string) : String.length (String.rev s) = String.length s.
Proof.
  induction s as [|a s IH]; [done |].
  rewrite string_rev_cons, string_app_length, IH. cbn. lia.
Qed.

Lemma CutPrefix_Some (s prefix rest : string) :
  CutPrefix s prefix = Some rest ↔ s = prefix +:+ rest.
Proof.
  revert s. induction prefix as [|p prefix IH]; intros s; cbn.
  - split; congruence.
  - destruct s as [|c s]; [done |]. case_decide as Hc.
    + subst c. rewrite IH. split; congruence.
    + split; [done | congruence].
Qed.

Lemma cutRune_Some (runes : list string) (s rest : string) :
  cutRune runes s = Some rest → ∃ r, r ∈ runes ∧ s = r +:+ rest.
Proof.
  induction runes as [|r runes IH]; cbn; [done |].
  destruct (CutPrefix s r) as [rest'|] eqn:Hcut.
  - intros [= ->]. apply CutPrefix_Some in Hcut. exists r. split; [constructor | done].
  - intros (r' & Hr' & Hs)%IH. exists r'. split; [by constructor | done].
Qed.

Lemma cutRune_None (runes : list string) (s : string) :
  cutRune runes s = None ↔ ∀ r rest, r ∈ runes → s ≠ r +:+ rest.
Proof.
  induction runes as [|r runes IH]; cbn.
  - split; [intros _ r rest Hr; by apply elem_of_nil in Hr | done].
  - destruct (CutPrefix s r) as [rest'|] eqn:Hcut.
    + apply CutPrefix_Some in Hcut. split; [done |].
      intros Hno. destruct (Hno r rest'); [constructor | done].
    + rewrite IH. split.
      * intros Hno r' rest [->|Hr']%elem_of_cons; [|by apply Hno].
        intros Hs%CutPrefix_Some. congruence.
      * intros Hno r' rest Hr'. apply Hno. by constructor.
Qed.

Lemma runesOnly_snoc (runes : list string) (s r : string) :
  runesOnly runes s → r ∈ runes → runesOnly runes (s +:+ r).
Proof.
  intros Hs Hr. induction Hs as [|r' s Hr' Hs IH]; cbn.
  - rewrite <- (string_app_nil_r r). by repeat constructor.
  - rewrite string_app_assoc. by constructor.
Qed.

(** [trimRunes] drops a prefix made of runes, and with one round per byte
    leaves no rune at the front. *)
Lemma trimRunes_spec (runes : list string) (fuel : nat) (s : string) :
  Forall (λ r, r ≠ "") runes → String.length s ≤ fuel →
  ∃ dropped,
    s = dropped +:+ trimRunes fuel runes s ∧
    runesOnly runes dropped ∧
    cutRune runes (trimRunes fuel runes s) = None.
Proof.
  intros Hrunes. revert s. induction fuel as [|fuel IH]; intros s Hlen.
  - destruct s; [|cbn in Hlen; lia]. exists "". split_and!; [done | constructor |].
    apply cutRune_None. intros r rest Hr Hs.
    rewrite Forall_forall in Hrunes. apply (Hrunes r Hr). by destruct r.
  - cbn [trimRunes]. destruct (cutRune runes s) as [rest|] eqn:Hcut.
    + apply cutRune_Some in Hcut as (r & Hr & ->).
      destruct (IH rest) as (dropped & Hrest & Hdropped & Hnone).
      { rewrite Forall_forall in Hrunes. specialize (Hrunes r Hr).
        rewrite string_app_length in Hlen. destruct r; [done |]. cbn in Hlen. lia. }
      exists (r +:+ dropped). split_and!; [| by constructor | done].
      by rewrite string_app_assoc, <- Hrest.
    + exists "". split_and!; [done | constructor | done].
Qed.

Lemma spaceRunes_nonempty : Forall (λ r, r ≠ "") spaceRunes.
Proof. unfold spaceRunes. by repeat constructor. Qed.

Lemma rev_spaceRunes_nonempty : Forall (λ r, r ≠ "") (String.rev <$> spaceRunes).
Proof. unfold spaceRunes. by repeat constructor. Qed.

Lemma runesOnly_rev (s : string) :
  runesOnly (String.rev <$> spaceRunes) s → runesOnly spaceRunes (String.rev s).
Proof.
  induction 1 as [|r s Hr Hs IH]; [constructor |].
  rewrite string_rev_app. apply runesOnly_snoc; [done |].
  apply list_elem_of_fmap in Hr as (r' & -> & Hr'). by rewrite string_rev_involutive.
Qed.

(** [TrimSpace s] is [s] without a prefix and a suffix made of white-space
    runes, and neither begins nor ends with a white-space rune. *)
Lemma TrimSpace_spec (s : string) :
  ∃ leading trailing,
    s = leading +:+ TrimSpace s +:+ trailing ∧
    runesOnly spaceRunes leading ∧ runesOnly spaceRunes trailing ∧
    (∀ r rest, r ∈ spaceRunes → TrimSpace s ≠ r +:+ rest) ∧
    (∀ r rest, r ∈ spaceRunes → TrimSpace s ≠ rest +:+ r).
Proof.
  unfold TrimSpace, TrimRightSpace, TrimLeftSpace.
  destruct (trimRunes_spec spaceRunes (String.length s) s spaceRunes_nonempty)
    as (leading & Hs & Hleading & Hfront); [lia |].
  set (t := trimRunes (String.length s) spaceRunes s) in *.
  destruct (trimRunes_spec (String.rev <$> spaceRunes) (String.length t)
              (String.rev t) rev_spaceRunes_nonempty)
    as (gnilart & Ht & Htrailing & Hback); [by rewrite string_rev_length |].
  set (u := trimRunes (String.length t) (String.rev <$> spaceRunes) (String.rev t)) in *.
  assert (t = String.rev u +:+ String.rev gnilart) as Htu.
  { by rewrite <- string_rev_app, <- Ht, string_rev_involutive. }
  exists leading, (String.rev gnilart). split_and!.
  - by rewrite <- Htu.
  - done.
  - by apply runesOnly_rev.
  - intros r rest Hr Hu. rewrite cutRune_None in Hfront.
    apply (Hfront r (rest +:+ String.rev gnilart) Hr).
    by rewrite Htu, Hu, string_app_assoc.
  - intros r rest Hr Hu. rewrite cutRune_None in Hback.
    apply (Hback (String.rev r) (String.rev rest)).
    + by apply list_elem_of_fmap_2.
    + by rewrite <- string_rev_app, <- Hu, string_rev_involutive.
Qed.

Lemma TrimSpace_empty : TrimSpace "" = "".
Proof. reflexivity. Qed.

End StringFacts.

(** * Facts about the pipeline *)

Section PipelineFacts.

Lemma foldl_append {A B} (f : A → B) (l : list A) (acc : list B) :
  foldl (λ acc x, append acc (f x)) acc l = acc ++ (f <$> l).
Proof.
  revert acc. induction l as [|x l IH]; intros acc; cbn.
  - by rewrite (right_id_L [] (++)).
  - rewrite IH. unfold append. by rewrite <- (assoc_L (++)).
Qed.

Lemma cleanDomainNames_fmap (domains : list string) :
  cleanDomainNames domains = strings.TrimSpace <$> domains.
Proof. apply (foldl_append strings.TrimSpace domains []). Qed.

Lemma parseWords_fmap (content : string) :
  parseWords content = strings.TrimSpace <$> strings.Split content nl.
Proof. apply (foldl_append strings.TrimSpace _ []). Qed.

Lemma partitionDomains_filter (domains : list string) :
  partitionDomains domains =
    (filter (λ d, strings.HasPrefix d "*" = true) domains,
     filter (λ d, strings.HasPrefix d "*" ≠ true) domains).
Proof.
  unfold partitionDomains.
  enough (∀ wild conc,
    foldl (λ '(wildCards, nonWildCards) domain,
             if strings.HasPrefix domain "*"
             then (append wildCards domain, nonWildCards)
             else (wildCards, append nonWildCards domain))
          (wild, conc) domains =
      (wild ++ filter (λ d, strings.HasPrefix d "*" = true) domains,
       conc ++ filter (λ d, strings.HasPrefix d "*" ≠ true) domains))
    as H by apply (H [] []).
  induction domains as [|d domains IH]; intros wild conc.
  - cbn. by rewrite !(right_id_L [] (++)).
  - cbn [foldl]. rewrite !filter_cons.
    destruct (strings.HasPrefix d "*") eqn:Hd; rewrite IH; unfold append.
    + rewrite decide_True, decide_False by (done || naive_solver).
      by rewrite <- (assoc_L (++)).
    + rewrite decide_False, decide_True by (done || naive_solver).
      by rewrite <- (assoc_L (++)).
Qed.

Lemma partition_permutation (domains : list string) :
  (partitionDomains domains).1 ++ (partitionDomains domains).2 ≡ₚ domains.
Proof.
  rewrite partitionDomains_filter. cbn [fst snd].
  induction domains as [|d l IH]; [done |].
  rewrite !filter_cons. destruct (strings.HasPrefix d "*") eqn:Hd.
  - rewrite decide_True, decide_False by (done || (intros H; by apply H)).
    cbn. by rewrite IH.
  - rewrite decide_False, decide_True by done.
    rewrite <- Permutation_middle. by rewrite IH.
Qed.

Lemma extend_loops (domains words acc : list string) :
  foldl (λ potentialDomains domain,
           foldl (λ potentialDomains word,
                    append potentialDomains (strings.Replace domain "*" word 1))
                 potentialDomains words)
        acc domains = acc ++ candidates domains words.
Proof.
  revert acc. induction domains as [|d domains IH]; intros acc; cbn.
  - by rewrite (right_id_L [] (++)).
  - rewrite (foldl_append (λ word, strings.Replace d "*" word 1)), IH.
    by rewrite <- (assoc_L (++)).
Qed.

Lemma candidates_length (domains words : list string) :
  length (candidates domains words) = length domains * length words.
Proof.
  induction domains as [|d domains IH]; [done |].
  unfold candidates in *.
  rewrite bind_cons, length_app, length_fmap, IH. cbn [length]. lia.
Qed.

Lemma elem_of_candidates (domains words : list string) (c : string) :
  c ∈ candidates domains words ↔
  ∃ domain word, domain ∈ domains ∧ word ∈ words ∧
                 c = strings.Replace domain "*" word 1.
Proof.
  unfold candidates. rewrite list_elem_of_bind. split.
  - intros (d & (w & -> & Hw)%list_elem_of_fmap & Hd). eauto.
  - intros (d & w & Hd & Hw & ->). exists d. split; [|done].
    apply list_elem_of_fmap. eauto.
Qed.

Lemma extendWildcardDomains_read (domains : list string) (path content : string)
    (w : World) :
  files w !! path = Some content →
  extendWildcardDomains domains path w =
    ((candidates domains (parseWords content), None), logged path w).
Proof.
  intros Hfile. unfold extendWildcardDomains, mbind, IO_bind, ioutil.ReadFile.
  rewrite Hfile. cbn. by rewrite (extend_loops domains _ []).
Qed.

Lemma extendWildcardDomains_error (domains : list string) (path : string)
    (w : World) :
  files w !! path = None →
  extendWildcardDomains domains path w =
    (([], Some (PathError "open" path)), logged path w).
Proof.
  intros Hfile. unfold extendWildcardDomains, mbind, IO_bind, ioutil.ReadFile.
  by rewrite Hfile.
Qed.

Lemma inserted_keys (l : list string) (m : gmap string bool) (x : string) :
  is_Some (foldl (λ m k, <[k := true]> m) m l !! x) ↔ is_Some (m !! x) ∨ x ∈ l.
Proof.
  revert m. induction l as [|k l IH]; intros m; cbn.
  - rewrite elem_of_nil. tauto.
  - rewrite IH, elem_of_cons, lookup_insert_is_Some'.
    split; [intros [[->|?]|?] | intros [?|[->|?]]]; auto.
Qed.

Lemma computeDifference_filter (domains potentialDomains : list string) :
  computeDifference domains potentialDomains =
    filter (λ c, c ∉ domains) potentialDomains.
Proof.
  unfold computeDifference.
  set (nonWild := foldl _ ∅ domains).
  assert (Hkeys : ∀ x, is_Some (nonWild !! x) ↔ x ∈ domains).
  { intros x. unfold nonWild. rewrite inserted_keys, lookup_empty.
    split; [intros [H%is_Some_None|H]; done | auto]. }
  enough (∀ acc,
    foldl (λ uniqPotentialDomains domain,
             if decide (is_Some (nonWild !! domain))
             then uniqPotentialDomains
             else append uniqPotentialDomains domain)
          acc potentialDomains =
      acc ++ filter (λ c, c ∉ domains) potentialDomains)
    as H by apply (H []).
  induction potentialDomains as [|c l IH]; intros acc; cbn [foldl].
  - by rewrite filter_nil, (right_id_L [] (++)).
  - rewrite filter_cons, IH. case_decide as Hc.
    + rewrite decide_False; [done |]. rewrite <- Hkeys. auto.
    + rewrite decide_True by (by rewrite <- Hkeys).
      unfold append. by rewrite <- (assoc_L (++)).
Qed.

(** the keys of [uniqDomains]: the common names and the lines of the name
    values, untrimmed *)
Lemma uniqDomains_keys (certificates : list Certificate) (x : string) :
  is_Some (uniqDomains certificates !! x) ↔
  ∃ c, c ∈ certificates ∧
       (x = CommonName c ∨ x ∈ strings.Split (NameValue c) nl).
Proof.
  unfold uniqDomains.
  enough (∀ m : gmap string bool,
    is_Some (foldl (λ uniqDomains cert,
                      foldl (λ uniqDomains nameValue,
                               <[nameValue := true]> uniqDomains)
                            (<[CommonName cert := true]> uniqDomains)
                            (strings.Split (NameValue cert) nl))
                   m certificates !! x) ↔
    is_Some (m !! x) ∨
    ∃ c, c ∈ certificates ∧
         (x = CommonName c ∨ x ∈ strings.Split (NameValue c) nl)) as H.
  { rewrite H, lookup_empty.
    split; [intros [H'%is_Some_None|H']; done | auto]. }
  induction certificates as [|c l IH]; intros m; cbn [foldl].
  - split; [auto | intros [?|(? & ?%elem_of_nil & _)]; done].
  - rewrite IH, inserted_keys, lookup_insert_is_Some'.
    setoid_rewrite elem_of_cons. split.
    + intros [[[<-|?]|?]|(c' & ? & ?)]; eauto 6.
    + intros [?|(c' & [->|?] & [->|?])]; eauto 6.
Qed.

End PipelineFacts.

(** * The claims about the pipeline *)

Section PipelineClaims.

Variable mapsKeys : gmap string bool → list string.
Hypothesis mapsKeys_perm : ∀ m, mapsKeys m ≡ₚ (map_to_list m).*1.

Lemma elem_of_mapsKeys (m : gmap string bool) (x : string) :
  x ∈ mapsKeys m ↔ is_Some (m !! x).
Proof.
  rewrite (mapsKeys_perm m), list_elem_of_fmap. split.
  - intros ([k v] & -> & Hkv%elem_of_map_to_list). eauto.
  - intros [v Hv]. exists (x, v). split; [done |].
    by apply elem_of_map_to_list.
Qed.

Lemma NoDup_mapsKeys (m : gmap string bool) : NoDup (mapsKeys m).
Proof. rewrite (mapsKeys_perm m). apply NoDup_fst_map_to_list. Qed.

Lemma mapsKeys_empty : mapsKeys ∅ = [].
Proof.
  apply Permutation_nil_r. rewrite (mapsKeys_perm ∅).
  by rewrite map_to_list_empty.
Qed.

Lemma extractDomains_filter (certificates : list Certificate) :
  extractDomains mapsKeys certificates =
    (filter (λ d, strings.HasPrefix d "*" = true)
            (strings.TrimSpace <$> mapsKeys (uniqDomains certificates)),
     filter (λ d, strings.HasPrefix d "*" ≠ true)
            (strings.TrimSpace <$> mapsKeys (uniqDomains certificates))).
Proof.
  unfold extractDomains.
  by rewrite partitionDomains_filter, cleanDomainNames_fmap.
Qed.

(** Whatever the word list, the first result of [getResolvableDomains] is
    the concrete list of the extraction. *)
Lemma getResolvableDomains_domains (certificates : list Certificate)
    (opts : Opts) (w : World) :
  (getResolvableDomains mapsKeys certificates opts w).1.1 =
    (extractDomains mapsKeys certificates).2.
Proof.
  unfold getResolvableDomains.
  destruct (extractDomains mapsKeys certificates) as [wild conc].
  case_decide; [|done].
  unfold mbind, IO_bind.
  destruct (extendWildcardDomains wild (File opts) w) as [[pot [e|]] w'];
    done.
Qed.

(** The extraction holds the trimmed form of every common name and of
    every line of every name value. *)
Lemma extraction_complete (certificates : list Certificate) (c : Certificate)
    (x : string) :
  c ∈ certificates →
  x = CommonName c ∨ x ∈ strings.Split (NameValue c) nl →
  strings.TrimSpace x ∈
    (extractDomains mapsKeys certificates).1 ++
    (extractDomains mapsKeys certificates).2.
Proof.
  intros Hc Hx. rewrite extractDomains_filter. cbn [fst snd].
  assert (strings.TrimSpace x ∈
          strings.TrimSpace <$> mapsKeys (uniqDomains certificates)) as Hin.
  { apply list_elem_of_fmap_2, elem_of_mapsKeys, uniqDomains_keys. eauto. }
  rewrite elem_of_app, !list_elem_of_filter.
  destruct (strings.HasPrefix (strings.TrimSpace x) "*"); [left | right]; done.
Qed.

(** The extraction has no duplicate when no two keys of [uniqDomains] have
    the same trimmed form. *)
Lemma extraction_NoDup (certificates : list Certificate) :
  (∀ x y, is_Some (uniqDomains certificates !! x) →
          is_Some (uniqDomains certificates !! y) →
          strings.TrimSpace x = strings.TrimSpace y → x = y) →
  NoDup ((extractDomains mapsKeys certificates).1 ++
         (extractDomains mapsKeys certificates).2).
Proof.
  intros Hinj. unfold extractDomains.
  rewrite partition_permutation, cleanDomainNames_fmap.
  apply NoDup_fmap_2_strong; [|apply NoDup_mapsKeys].
  intros x y Hx%elem_of_mapsKeys Hy%elem_of_mapsKeys. by apply Hinj.
Qed.

Lemma permutation_of_two {A} (l : list A) (a b : A) :
  l ≡ₚ [a; b] → l = [a; b] ∨ l = [b; a].
Proof.
  intros Hperm. pose proof (Permutation_length Hperm) as Hlen.
  destruct l as [|x [|y [|z l]]]; try done. clear Hlen.
  assert (x ∈ [a; b]) as Hx by (rewrite <- Hperm; set_solver).
  apply elem_of_cons in Hx as [->|Hx%list_elem_of_singleton].
  - apply Permutation_cons_inv, Permutation_singleton_inj in Hperm as ->. auto.
  - subst x. rewrite (Permutation_swap b a []) in Hperm.
    apply Permutation_cons_inv, Permutation_singleton_inj in Hperm as ->. auto.
Qed.

(** C1: a common name and a name-value line that differ only in surrounding
    white space are two keys of [uniqDomains]; trimming comes after, so the
    concrete list holds their common trimmed form twice, in whatever order
    the map is iterated. *)
Theorem extraction_duplicates_after_trimming :
  extractDomains mapsKeys [certificate "a.com" "a.com "] = ([], ["a.com"; "a.com"]).
Proof.
  rewrite extractDomains_filter.
  pose proof (mapsKeys_perm (uniqDomains [certificate "a.com" "a.com "])) as Hkeys.
  vm_compute (map_to_list _).*1 in Hkeys.
  apply permutation_of_two in Hkeys as [-> | ->]; reflexivity.
Qed.

(** C4: when the word-list file cannot be read, the extended list is empty
    and the concrete list is the one of a run without a word list; the
    function has no error to return and returns in every world, with the
    files as they were. *)
Theorem unreadable_word_list_is_skipped (certificates : list Certificate)
    (opts : Opts) (w : World) :
  files w !! File opts = None →
  let result := getResolvableDomains mapsKeys certificates opts w in
  result.1.2 = [] ∧
  result.1.1 =
    (getResolvableDomains mapsKeys certificates (withoutWordList opts) w).1.1 ∧
  files result.2 = files w.
Proof.
  intros Hfile result. subst result.
  rewrite !getResolvableDomains_domains. split_and!; [| done |].
  - unfold getResolvableDomains.
    destruct (extractDomains mapsKeys certificates) as [wild conc].
    case_decide; [|done]. unfold mbind, IO_bind.
    by rewrite (extendWildcardDomains_error _ _ _ Hfile).
  - unfold getResolvableDomains.
    destruct (extractDomains mapsKeys certificates) as [wild conc].
    case_decide; [|done]. unfold mbind, IO_bind.
    by rewrite (extendWildcardDomains_error _ _ _ Hfile).
Qed.

(** C5, as the code has it: with no certificate the extraction yields two
    empty lists and the extended list is empty; when a word-list path is
    given the expansion is still entered, and the word-list file is read,
    once. *)
Theorem no_certificates (opts : Opts) (w : World) :
  extractDomains mapsKeys [] = ([], []) ∧
  let result := getResolvableDomains mapsKeys [] opts w in
  result.1 = ([], []) ∧
  readLog result.2 =
    readLog w ++ (if decide (0 < String.length (File opts)) then [File opts] else []).
Proof.
  assert (extractDomains mapsKeys [] = ([], [])) as Hextract.
  { unfold extractDomains. change (uniqDomains []) with (∅ : gmap string bool).
    by rewrite mapsKeys_empty. }
  split; [done |]. cbv zeta. unfold getResolvableDomains. rewrite Hextract.
  case_decide.
  - unfold mbind, IO_bind.
    destruct (files w !! File opts) as [content|] eqn:Hfile.
    + rewrite (extendWildcardDomains_read _ _ _ _ Hfile). by cbn.
    + rewrite (extendWildcardDomains_error _ _ _ Hfile). by cbn.
  - cbn. by rewrite (right_id_L [] (++)).
Qed.

(** C10: when a certificate has an empty common name, or an empty line in
    its name value, the empty string is a concrete hostname, not a wildcard,
    and is in the first result of [getResolvableDomains]: the list that goes
    to the resolution. *)
Theorem empty_hostname_is_concrete (certificates : list Certificate)
    (opts : Opts) (w : World) (c : Certificate) :
  c ∈ certificates →
  CommonName c = "" ∨ "" ∈ strings.Split (NameValue c) nl →
  "" ∈ (getResolvableDomains mapsKeys certificates opts w).1.1 ∧
  "" ∉ (extractDomains mapsKeys certificates).1.
Proof.
  intros Hc Hempty. rewrite getResolvableDomains_domains.
  assert ("" ∈ (extractDomains mapsKeys certificates).1 ++
               (extractDomains mapsKeys certificates).2) as Hin.
  { apply (extraction_complete certificates c ""); [done |].
    destruct Hempty as [->|?]; auto. }
  rewrite extractDomains_filter in *. cbn [fst snd] in *.
  assert ("" ∉ filter (λ d, strings.HasPrefix d "*" = true)
            (strings.TrimSpace <$> mapsKeys (uniqDomains certificates))) as Hnot.
  { by intros [? _]%list_elem_of_filter. }
  split; [|done]. apply elem_of_app in Hin as [?|?]; done.
Qed.

End PipelineClaims.

(** * The claims about partition, expansion and filtering *)

Section ExpansionClaims.
Import strings.

(** C6: every hostname of the partitioned list is in exactly one of the
    wildcard list and the concrete list, and it is in the wildcard list
    exactly when its first character is [*]; the two lists together are a
    rearrangement of the input, so nothing else is in them. *)
Theorem partition_exhaustive_disjoint (domains : list string) (d : string) :
  d ∈ domains →
  let '(wildCards, nonWildCards) := partitionDomains domains in
  ((d ∈ wildCards ∧ d ∉ nonWildCards) ∨ (d ∈ nonWildCards ∧ d ∉ wildCards)) ∧
  (d ∈ wildCards ↔ ∃ rest, d = String "*" rest) ∧
  (d ∈ nonWildCards ↔ ¬ ∃ rest, d = String "*" rest) ∧
  wildCards ++ nonWildCards ≡ₚ domains.
Proof.
  intros Hd. pose proof (partition_permutation domains) as Hperm.
  rewrite partitionDomains_filter in *. cbn [fst snd] in Hperm.
  rewrite !list_elem_of_filter.
  pose proof (HasPrefix_byte "*" d) as Hstar.
  destruct (HasPrefix d "*") eqn:Hprefix.
  - assert (∃ rest, d = String "*" rest) as Hw by by apply Hstar.
    split_and!; [left | | | done].
    + split; [done |]. by intros [Hn _].
    + done.
    + split; [by intros [Hn _] | done].
  - assert (¬ ∃ rest, d = String "*" rest) as Hc by by intros ?%Hstar.
    split_and!; [right | | | done].
    + split; [done |]. by intros [Hn _].
    + split; [by intros [Hn _] | done].
    + done.
Qed.

Lemma candidates_lookup (domains words : list string) (i j : nat)
    (domain word : string) :
  domains !! i = Some domain → words !! j = Some word →
  candidates domains words !! (i * length words + j) =
    Some (Replace domain "*" word 1).
Proof.
  revert i. unfold candidates.
  induction domains as [|d l IH]; intros i Hi Hj; [done |].
  rewrite bind_cons. destruct i as [|i]; cbn in Hi.
  - injection Hi as ->. cbn [Nat.mul Nat.add].
    rewrite lookup_app_l by (rewrite length_fmap; by eapply lookup_lt_Some).
    by rewrite list_lookup_fmap, Hj.
  - rewrite lookup_app_r by (rewrite length_fmap; cbn; lia).
    rewrite length_fmap.
    replace (S i * length words + j - length words)
      with (i * length words + j) by (cbn; lia).
    by apply IH.
Qed.

(** C2: when the word-list file can be read, its lines are trimmed to give
    the words, and the raw candidates are [|wildcards| * |words|] strings:
    wildcard by wildcard and word by word, the wildcard with its first [*],
    and no other, replaced by the word. *)
Theorem expansion_raw_candidates (domains : list string) (wordsPath content : string)
    (w : World) :
  files w !! wordsPath = Some content →
  let words := TrimSpace <$> Split content nl in
  ∃ raw,
    (extendWildcardDomains domains wordsPath w).1 = (raw, None) ∧
    length raw = length domains * length words ∧
    (∀ i j domain word,
       domains !! i = Some domain → words !! j = Some word →
       raw !! (i * length words + j) = Some (Replace domain "*" word 1)) ∧
    (∀ pre post word,
       occurs "*" pre = false →
       Replace (pre +:+ String "*" post) "*" word 1 = pre +:+ word +:+ post) ∧
    (∀ domain word, occurs "*" domain = false → Replace domain "*" word 1 = domain).
Proof.
  intros Hfile words.
  exists (candidates domains words).
  rewrite (extendWildcardDomains_read _ _ _ _ Hfile), parseWords_fmap.
  split_and!.
  - done.
  - apply candidates_length.
  - intros i j domain word. apply candidates_lookup.
  - intros pre post word. apply Replace_first.
  - intros domain word. apply Replace_absent.
Qed.

(** C3: filtering keeps a candidate exactly when it equals no concrete
    hostname, in the order and as many times as it occurs among the
    candidates; so no string of the result is a concrete hostname, and a
    string that two wildcard and word combinations produce is kept twice. *)
Theorem difference_keeps_unknown_candidates
    (domains potentialDomains : list string) :
  computeDifference domains potentialDomains =
    filter (λ c, c ∉ domains) potentialDomains ∧
  (∀ c, c ∈ computeDifference domains potentialDomains ↔
        c ∈ potentialDomains ∧ c ∉ domains) ∧
  computeDifference ["www.a.com"] (candidates ["*.a.com"; "*a.com"] ["x"; "x."]) =
    ["x.a.com"; "x..a.com"; "xa.com"; "x.a.com"].
Proof.
  split_and!.
  - apply computeDifference_filter.
  - intros c. rewrite computeDifference_filter, list_elem_of_filter. tauto.
  - reflexivity.
Qed.

(** C7: when the content of the word-list file ends with a newline, the last
    word is the empty string, and the raw candidates hold, for every
    wildcard, the wildcard with its first [*] replaced by the empty string:
    for a hostname that begins with [*], the rest of the hostname. *)
Theorem trailing_newline_empty_word (domains : list string)
    (wordsPath content : string) (w : World) :
  files w !! wordsPath = Some (content +:+ nl) →
  last (parseWords (content +:+ nl)) = Some "" ∧
  (∀ domain, domain ∈ domains →
     Replace domain "*" "" 1 ∈ (extendWildcardDomains domains wordsPath w).1.1) ∧
  (∀ rest, String "*" rest ∈ domains →
     rest ∈ (extendWildcardDomains domains wordsPath w).1.1).
Proof.
  intros Hfile.
  assert (last (parseWords (content +:+ nl)) = Some "") as Hlast.
  { rewrite parseWords_fmap, fmap_last. unfold nl.
    by rewrite Split_byte, splitByte_snoc, last_snoc. }
  assert (∀ domain, domain ∈ domains →
     Replace domain "*" "" 1 ∈ (extendWildcardDomains domains wordsPath w).1.1)
    as Hall.
  { intros domain Hdomain.
    rewrite (extendWildcardDomains_read _ _ _ _ Hfile). cbn [fst].
    apply elem_of_candidates. exists domain, "". split_and!; [done | | done].
    by apply last_Some_elem_of. }
  split_and!; [done..|].
  intros rest Hrest. specialize (Hall _ Hrest).
  pose proof (Replace_first "*" "" rest "" eq_refl) as Hrepl.
  change (Replace (String "*" rest) "*" "" 1 = rest) in Hrepl.
  by rewrite Hrepl in Hall.
Qed.

End ExpansionClaims.

(** * The resolution batch *)

Section ResolverFacts.
Import Resolver.

Context {IP : Type}.
Variable IP_String : IP → string.
Variable LookupIP : string → list IP * option error.

Local Abbreviation step := (Resolver.step IP_String LookupIP).
Local Abbreviation batchInv := (Resolver.batchInv IP_String LookupIP).
Local Abbreviation lookUpDns := (Resolver.lookUpDns LookupIP).
Local Abbreviation printed := (Resolver.printed IP_String).
Local Abbreviation line := (Resolver.line IP_String).
Local Abbreviation resolved := (Resolver.resolved LookupIP).

Lemma batchInv_start (domain : list string) (plain : bool) (out : list string) :
  batchInv domain plain out (start domain out).
Proof.
  unfold Resolver.batchInv, start. cbn. split_and!; [lia | done | done |].
  by rewrite (right_id_L [] (++)).
Qed.

Lemma printed_snoc (plain : bool) (rcv : list (outcome IP)) (o : outcome IP) :
  printed plain (rcv ++ [o]) =
    printed plain rcv ++ match o with
                         | inl resp => [line plain resp]
                         | inr _ => []
                         end.
Proof. unfold Resolver.printed. rewrite omap_app. by destruct o. Qed.

Lemma batchInv_step (domain : list string) (plain : bool) (out : list string)
    (s s' : Batch IP) :
  batchInv domain plain out s → step plain (length domain) s s' →
  batchInv domain plain out s'.
Proof.
  intros (Hcount & Hle & Hperm & Hout) Hstep.
  destruct Hstep as [d ds run c e k rcv o | ds run1 d run2 resp c e k rcv o Hd Hcap
                    | ds run1 d run2 failed c e k rcv o Hd Hcap
                    | run resp c e k rcv o | run failed c e k rcv o];
    unfold Resolver.batchInv in *;
    cbn [todo running ch errCh loops received stdout] in *;
    rewrite ?length_app, ?fmap_app, ?fmap_cons in *; cbn [length] in *.
  - split_and!; [lia | done | | done].
    rewrite <- Hperm. by rewrite <- !(assoc_L (++)).
  - split_and!; [lia | done | | done].
    rewrite <- Hperm, Hd. solve_Permutation.
  - split_and!; [lia | done | | done].
    rewrite <- Hperm, Hd. solve_Permutation.
  - split_and!; [lia | lia | |].
    + rewrite <- Hperm. solve_Permutation.
    + rewrite printed_snoc, Hout. by rewrite <- (assoc_L (++)).
  - split_and!; [lia | lia | |].
    + rewrite <- Hperm. solve_Permutation.
    + rewrite printed_snoc, Hout. by rewrite (right_id_L [] (++)).
Qed.

Lemma batchInv_runs (domain : list string) (plain : bool) (out : list string)
    (s : Batch IP) :
  runs IP_String LookupIP domain plain out s → batchInv domain plain out s.
Proof.
  unfold runs. intros Hruns.
  eapply (rtc_ind_r (batchInv domain plain out)); [| | exact Hruns].
  - apply batchInv_start.
  - intros s1 s2 _ Hstep Hinv. by eapply batchInv_step.
Qed.

(** every step uses up one of the steps left *)
Lemma step_stepsLeft (plain : bool) (cap : nat) (s s' : Batch IP) :
  step plain cap s s' → stepsLeft s = S (stepsLeft s').
Proof.
  intros Hstep. destruct Hstep; unfold stepsLeft; cbn;
    rewrite ?length_app; cbn; lia.
Qed.

Lemma nsteps_stepsLeft (plain : bool) (cap n : nat) (s s' : Batch IP) :
  nsteps (step plain cap) n s s' → stepsLeft s = n + stepsLeft s'.
Proof.
  induction 1 as [|n s1 s2 s3 Hstep _ IH]; [done |].
  apply step_stepsLeft in Hstep. lia.
Qed.

(** A batch that has not returned can take a step: a send never waits, and
    the [select] finds a value once every goroutine has sent. *)
Lemma batch_progress (domain : list string) (plain : bool) (out : list string)
    (s : Batch IP) :
  batchInv domain plain out s →
  returned s ∨ ∃ s', step plain (length domain) s s'.
Proof.
  intros (Hcount & Hle & _ & _).
  destruct s as [ds run c e k rcv o]; unfold returned; cbn in *.
  destruct ds as [|d ds]; [|right; eexists; apply step_go].
  destruct k as [|k]; [by left | right].
  destruct c as [|resp c]; [|eexists; apply step_recv_ch].
  destruct e as [|failed e]; [|eexists; apply step_recv_errCh].
  destruct run as [|d run]; [cbn in Hcount; lia |].
  destruct (lookUpDns d) as [resp|failed] eqn:Hd; eexists.
  - apply (step_send_ch _ _ _ _ _ [] [] d run resp); [done | cbn; lia].
  - apply (step_send_errCh _ _ _ _ _ [] [] d run failed); [done | cbn; lia].
Qed.

Lemma batch_returns (domain : list string) (plain : bool) (out : list string)
    (n : nat) (s : Batch IP) :
  stepsLeft s ≤ n → batchInv domain plain out s →
  ∃ s', rtc (step plain (length domain)) s s' ∧ returned s'.
Proof.
  revert s. induction n as [|n IH]; intros s Hn Hinv;
    (destruct (batch_progress _ _ _ _ Hinv) as [Hret|[s1 Hstep]];
     [by exists s |]).
  - apply step_stepsLeft in Hstep. lia.
  - destruct (IH s1) as (s' & Hrtc & Hret).
    + apply step_stepsLeft in Hstep. lia.
    + by eapply batchInv_step.
    + exists s'. split; [by eapply rtc_l | done].
Qed.

Lemma printed_resolved (plain : bool) (domain : list string) :
  printed plain (lookUpDns <$> domain) = line plain <$> resolved domain.
Proof.
  unfold Resolver.printed, Resolver.resolved.
  induction domain as [|d l IH]; [done |]. cbn.
  destruct (lookUpDns d); cbn; by rewrite IH.
Qed.

(** the results of the domains that resolve, one by one *)
Lemma elem_of_resolved (domain : list string) (resp : DNSLookupResult IP) :
  resp ∈ resolved domain ↔
  Domain resp ∈ domain ∧ LookupIP (Domain resp) = (Ips resp, None).
Proof.
  unfold Resolver.resolved. rewrite list_elem_of_omap. split.
  - intros (d & Hd & Hresp). unfold Resolver.lookUpDns in Hresp.
    destruct (LookupIP d) as [ips [err|]] eqn:Hlookup; [done |].
    injection Hresp as <-. by cbn.
  - intros [Hd Hlookup]. exists (Domain resp). split; [done |].
    unfold Resolver.lookUpDns. rewrite Hlookup. by destruct resp.
Qed.

Lemma returned_batch (domain : list string) (plain : bool) (out : list string)
    (s : Batch IP) :
  batchInv domain plain out s → returned s →
  todo s = [] ∧ running s = [] ∧ ch s = [] ∧ errCh s = [] ∧
  received s ≡ₚ lookUpDns <$> domain ∧
  stdout s = out ++ printed plain (received s) ∧
  printed plain (received s) ≡ₚ line plain <$> resolved domain.
Proof.
  intros (Hcount & Hle & Hperm & Hout) [Htodo Hloops].
  rewrite Htodo, Hloops in Hcount. cbn in Hcount.
  assert (running s = []) as Hrun by (apply nil_length_inv; lia).
  assert (ch s = []) as Hch by (apply nil_length_inv; lia).
  assert (errCh s = []) as Herr by (apply nil_length_inv; lia).
  rewrite Htodo, Hrun, Hch, Herr in Hperm. cbn in Hperm.
  rewrite (right_id_L [] (++)) in Hperm.
  split_and!; try done.
  rewrite <- printed_resolved. unfold Resolver.printed. by rewrite Hperm.
Qed.

Lemma printReachableDomains_output (domain : list string) (plain : bool)
    (out out' : list string) :
  printReachableDomains IP_String LookupIP domain plain out out' →
  ∃ lines, out' = out ++ lines ∧ lines ≡ₚ line plain <$> resolved domain.
Proof.
  intros (s & Hruns%batchInv_runs & Hret & <-).
  destruct (returned_batch _ _ _ _ Hruns Hret) as (_ & _ & _ & _ & _ & Hout & Hlines).
  eauto.
Qed.

(** C9: a call of [printReachableDomains] on [domain], at any point of any
    interleaving, can go on to return, and takes at most three steps per
    hostname; when it returns, a goroutine has been launched for every
    hostname, none is still running, both channels are empty, the values the
    [select] received are the outcomes of the hostnames, each once, and the
    lines printed are one per hostname that resolved and none for the others. *)
Theorem batch_drains_every_outcome (domain : list string) (plain : bool)
    (out : list string) (s : Batch IP) :
  runs IP_String LookupIP domain plain out s →
  (∃ s', rtc (step plain (length domain)) s s' ∧ returned s') ∧
  (∀ n s', nsteps (step plain (length domain)) n s s' → n ≤ 3 * length domain) ∧
  (returned s →
     todo s = [] ∧ running s = [] ∧ ch s = [] ∧ errCh s = [] ∧
     received s ≡ₚ lookUpDns <$> domain ∧
     length (received s) = length domain ∧
     stdout s = out ++ printed plain (received s) ∧
     printed plain (received s) ≡ₚ line plain <$> resolved domain ∧
     ∀ n, nsteps (step plain (length domain)) n (start domain out) s →
          n = 3 * length domain).
Proof.
  intros Hruns. pose proof (batchInv_runs _ _ _ _ Hruns) as Hinv.
  split_and!.
  - by eapply batch_returns.
  - intros n s' Hn. apply nsteps_stepsLeft in Hn.
    apply rtc_nsteps in Hruns as [m Hm]. apply nsteps_stepsLeft in Hm.
    unfold stepsLeft, start in *. cbn [todo running loops length] in Hm. lia.
  - intros Hret.
    destruct (returned_batch _ _ _ _ Hinv Hret)
      as (Htodo & Hrun & Hch & Herr & Hrcv & Hout & Hlines).
    split_and!; try done.
    + by rewrite Hrcv, length_fmap.
    + intros n Hn%nsteps_stepsLeft. destruct Hret as [_ Hloops].
      unfold stepsLeft, start in Hn. rewrite Htodo, Hrun, Hloops in Hn.
      cbn [todo running loops length] in Hn. lia.
Qed.

(** C8: what [printDomains] prints is the lines of the first batch, then the
    header (a line break, [Extended domains:] and a line break) exactly when
    the extended list is not empty and the mode is not plain, then the lines
    of the second batch; the lines of a batch are those of its hostnames that
    resolved, in some order: the hostname alone in plain mode, the hostname,
    [ - IPs: ] and the addresses otherwise. *)
Theorem printDomains_output (domains extendedDomains : list string)
    (plain : bool) (out' : list string) :
  printDomains IP_String LookupIP domains extendedDomains plain [] out' →
  ∃ lines1 lines2,
    out' = lines1 ++
           (if decide (extendedDomains ≠ [] ∧ plain = false) then [header] else []) ++
           lines2 ∧
    lines1 ≡ₚ line plain <$> resolved domains ∧
    lines2 ≡ₚ line plain <$> resolved extendedDomains ∧
    (∀ l resp, resp ∈ resolved l ↔
               Domain resp ∈ l ∧ LookupIP (Domain resp) = (Ips resp, None)) ∧
    (∀ resp, line true resp = Domain resp +:+ nl) ∧
    (∀ resp, line false resp =
               Domain resp +:+ " - IPs: " +:+ fmt_Ips IP_String (Ips resp) +:+ nl) ∧
    header = nl +:+ "Extended domains:" +:+ nl.
Proof.
  intros (out1 & (lines1 & -> & Hlines1)%printReachableDomains_output & Hext).
  cbn [app] in Hext. exists lines1.
  destruct extendedDomains as [|d ext].
  - rewrite decide_False in Hext by (cbn; lia). subst out'. exists [].
    rewrite decide_False by (by intros [? _]).
    split_and!; try done; [|apply elem_of_resolved].
    by rewrite !(right_id_L [] (++)).
  - rewrite decide_True in Hext by (cbn; lia).
    apply printReachableDomains_output in Hext as (lines2 & -> & Hlines2).
    exists lines2. destruct plain.
    + rewrite decide_False by (by intros [_ ?]).
      split_and!; try done. apply elem_of_resolved.
    + rewrite decide_True by done. split_and!; try done.
      * by rewrite <- (assoc_L (++)).
      * apply elem_of_resolved.
Qed.

End ResolverFacts.

(** * The statements at concrete inputs *)

Section Instances.
Import Resolver.

Lemma keysInOrder_perm (m : gmap string bool) : keysInOrder m ≡ₚ (map_to_list m).*1.
Proof. reflexivity. Defined.

(** the scenario of the specification: one certificate, two words *)
Example scenario_two_words :
  (getResolvableDomains keysInOrder
     [certificate "*.example.com" ("*.example.com" +:+ nl +:+ "www.example.com")]
     (options "words.txt")
     (world [("words.txt", "api" +:+ nl +:+ "shop")])).1 =
  (["www.example.com"], ["api.example.com"; "shop.example.com"]).
Proof. reflexivity. Qed.

(** the scenario of the specification: the candidate is a concrete hostname *)
Example scenario_known_candidate :
  (getResolvableDomains keysInOrder
     [certificate "*.example.com" ("*.example.com" +:+ nl +:+ "www.example.com")]
     (options "words.txt")
     (world [("words.txt", "www")])).1 =
  (["www.example.com"], []).
Proof. reflexivity. Qed.

Lemma extraction_duplicates_witness :
  extractDomains keysInOrder [certificate "a.com" "a.com "] =
    ([], ["a.com"; "a.com"]).
Proof. apply extraction_duplicates_after_trimming, keysInOrder_perm. Defined.

Lemma expansion_raw_candidates_witness :
  ∃ raw,
    (extendWildcardDomains ["*.example.com"] "words.txt"
       (world [("words.txt", "api" +:+ nl +:+ " shop ")])).1 = (raw, None) ∧
    length raw = 1 * 2 ∧
    raw !! (0 * 2 + 1) = Some "shop.example.com".
Proof.
  destruct (expansion_raw_candidates ["*.example.com"] "words.txt"
              ("api" +:+ nl +:+ " shop ")
              (world [("words.txt", "api" +:+ nl +:+ " shop ")]) eq_refl)
    as (raw & Hraw & Hlen & Hat & _).
  exists raw. split_and!; [exact Hraw | exact Hlen |].
  exact (Hat 0 1 "*.example.com" "shop" eq_refl eq_refl).
Defined.

Lemma unreadable_word_list_witness :
  let certificates :=
    [certificate "*.example.com" ("*.example.com" +:+ nl +:+ "www.example.com")] in
  let result :=
    getResolvableDomains keysInOrder certificates (options "missing.txt") (world []) in
  files (world []) !! "missing.txt" = None ∧
  result.1.2 = [] ∧
  result.1.1 = ["www.example.com"].
Proof.
  cbv zeta. split; [reflexivity |].
  destruct (unreadable_word_list_is_skipped keysInOrder
              [certificate "*.example.com"
                 ("*.example.com" +:+ nl +:+ "www.example.com")]
              (options "missing.txt") (world []) eq_refl) as (Hext & Hdomains & _).
  split; [exact Hext | exact Hdomains].
Defined.

(** C5 as the specification states it fails: with no certificate and a
    word-list path, the word-list file is read. *)
Lemma no_certificates_reads_word_list :
  let w := world [("words.txt", "api")] in
  let result := getResolvableDomains keysInOrder [] (options "words.txt") w in
  result.1 = ([], []) ∧
  readLog w = [] ∧
  readLog result.2 = ["words.txt"] ∧
  ¬ (readLog result.2 = readLog w).
Proof. cbv zeta. split_and!; [reflexivity.. | discriminate]. Qed.

Lemma no_certificates_witness :
  extractDomains keysInOrder [] = ([], []) ∧
  (getResolvableDomains keysInOrder [] (options "words.txt")
     (world [("words.txt", "api")])).1 = ([], []).
Proof.
  destruct (no_certificates keysInOrder keysInOrder_perm (options "words.txt")
              (world [("words.txt", "api")])) as (Hextract & Hresult & _).
  split; [exact Hextract | exact Hresult].
Defined.

Lemma partition_witness :
  "*.example.com" ∈ (partitionDomains ["*.example.com"; "www.example.com"]).1 ∧
  "*.example.com" ∉ (partitionDomains ["*.example.com"; "www.example.com"]).2.
Proof.
  pose proof (partition_exhaustive_disjoint ["*.example.com"; "www.example.com"]
                "*.example.com" ltac:(constructor)) as H.
  cbn in H. destruct H as (_ & Hwild & Hconc & _).
  split.
  - apply Hwild. by exists ".example.com".
  - intros Hin%Hconc. apply Hin. by exists ".example.com".
Defined.

Lemma trailing_newline_witness :
  last (parseWords ("api" +:+ nl)) = Some "" ∧
  ".example.com" ∈
    (extendWildcardDomains ["*.example.com"] "words.txt"
       (world [("words.txt", "api" +:+ nl)])).1.1.
Proof.
  destruct (trailing_newline_empty_word ["*.example.com"] "words.txt" "api"
              (world [("words.txt", "api" +:+ nl)]) eq_refl)
    as (Hlast & _ & Hrest).
  split; [exact Hlast |]. apply Hrest. constructor.
Defined.

Lemma empty_hostname_witness :
  "" ∈ (getResolvableDomains keysInOrder [certificate "" "www.example.com"]
          (options "") (world [])).1.1.
Proof.
  apply (empty_hostname_is_concrete keysInOrder keysInOrder_perm
           [certificate "" "www.example.com"] (options "") (world [])
           (certificate "" "www.example.com")).
  - constructor.
  - by left.
Defined.

Ltac launch := eapply rtc_l; [apply step_go |].
Ltac send :=
  eapply rtc_l;
  [ first [ eapply (step_send_ch _ _ _ _ _ _ []); [reflexivity | cbn; lia]
          | eapply (step_send_errCh _ _ _ _ _ _ []); [reflexivity | cbn; lia] ] |].
Ltac receive :=
  eapply rtc_l; [first [apply step_recv_ch | apply step_recv_errCh] |].

(** Two hostnames, of which the first resolves: both goroutines are launched,
    both send, the [select] receives the failure first. *)
Lemma batch_witness :
  let LookupIP := hostsTable [("a.example.com", ["10.0.0.1"])] in
  let domain := ["a.example.com"; "b.example.com"] in
  let s :=
    {| todo := []; running := []; ch := []; errCh := []; loops := 0;
       received := [inr "b.example.com";
                    inl {| Domain := "a.example.com"; Ips := ["10.0.0.1"] |}];
       stdout := ["a.example.com - IPs: [10.0.0.1]" +:+ nl] |} in
  runs id LookupIP domain false [] s ∧
  returned s ∧
  received s ≡ₚ lookUpDns LookupIP <$> domain ∧
  stdout s = line id false <$> resolved LookupIP domain.
Proof.
  cbv zeta.
  assert (runs id (hostsTable [("a.example.com", ["10.0.0.1"])])
            ["a.example.com"; "b.example.com"] false []
            {| todo := []; running := []; ch := []; errCh := []; loops := 0;
               received := [inr "b.example.com";
                            inl {| Domain := "a.example.com";
                                   Ips := ["10.0.0.1"] |}];
               stdout := ["a.example.com - IPs: [10.0.0.1]" +:+ nl] |}) as Hruns.
  { unfold runs, start. launch. launch. send. send.
    eapply rtc_l; [apply step_recv_errCh |]. receive. apply rtc_refl. }
  split; [exact Hruns |]. split; [by split |].
  destruct (batch_drains_every_outcome _ _ _ _ _ _ Hruns) as (_ & _ & Hreturned).
  destruct Hreturned as (_ & _ & _ & _ & Hreceived & _); [by split |].
  split; [exact Hreceived | reflexivity].
Defined.

(** The plain scenario of the specification: one hostname that resolves to
    [10.0.0.1] is printed bare. *)
Example scenario_plain :
  printDomains id (hostsTable [("a.example.com", ["10.0.0.1"])])
    ["a.example.com"] [] true [] ["a.example.com" +:+ nl].
Proof.
  exists ["a.example.com" +:+ nl]. split; [|done].
  eexists. split.
  - unfold runs, start. launch. send. receive. apply rtc_refl.
  - split; [by split | reflexivity].
Qed.

(** A concrete and an extended hostname that both resolve, not in plain mode:
    the header stands between the two lines. *)
Lemma printDomains_witness :
  let LookupIP :=
    hostsTable [("a.example.com", ["10.0.0.1"]); ("api.a.example.com", ["10.0.0.2"])] in
  let out' := ["a.example.com - IPs: [10.0.0.1]" +:+ nl;
               nl +:+ "Extended domains:" +:+ nl;
               "api.a.example.com - IPs: [10.0.0.2]" +:+ nl] in
  printDomains id LookupIP ["a.example.com"] ["api.a.example.com"] false [] out' ∧
  ∃ lines1 lines2, out' = lines1 ++ [header] ++ lines2.
Proof.
  cbv zeta.
  assert (printDomains id
            (hostsTable [("a.example.com", ["10.0.0.1"]);
                         ("api.a.example.com", ["10.0.0.2"])])
            ["a.example.com"] ["api.a.example.com"] false []
            ["a.example.com - IPs: [10.0.0.1]" +:+ nl;
             nl +:+ "Extended domains:" +:+ nl;
             "api.a.example.com - IPs: [10.0.0.2]" +:+ nl]) as Hprint.
  { exists ["a.example.com - IPs: [10.0.0.1]" +:+ nl]. split.
    - eexists. split.
      + unfold runs, start. launch. send. receive. apply rtc_refl.
      + split; [by split | reflexivity].
    - rewrite decide_True by (cbn; lia). eexists. split.
      + unfold runs, start. launch. send. receive. apply rtc_refl.
      + split; [by split | reflexivity]. }
  split; [exact Hprint |].
  destruct (printDomains_output _ _ _ _ _ _ Hprint) as (lines1 & lines2 & Hout & _).
  exists lines1, lines2. exact Hout.
Defined.

End Instances.

(** * Further properties of the pipeline *)

Section PipelineExtras.

Lemma uniqDomains_values (certificates : list Certificate) (x : string) (v : bool) :
  uniqDomains certificates !! x = Some v → v = true.
Proof.
  unfold uniqDomains.
  assert (∀ (l : list string) (m : gmap string bool),
            map_Forall (λ _ b, b = true) m →
            map_Forall (λ _ b, b = true)
              (foldl (λ m k, <[k := true]> m) m l)) as Hinner.
  { induction l as [|k l IH]; intros m Hm; [done |].
    cbn. apply IH. by apply map_Forall_insert_2. }
  enough (∀ m : gmap string bool,
            map_Forall (λ _ b, b = true) m →
            map_Forall (λ _ b, b = true)
              (foldl (λ uniqDomains cert,
                        foldl (λ uniqDomains nameValue,
                                 <[nameValue := true]> uniqDomains)
                              (<[CommonName cert := true]> uniqDomains)
                              (strings.Split (NameValue cert) nl))
                     m certificates)) as H.
  { intros Hx. by apply (H ∅ (map_Forall_empty _) x v). }
  induction certificates as [|c l IH]; intros m Hm; [done |].
  cbn [foldl]. apply IH, Hinner. by apply map_Forall_insert_2.
Qed.

(** X1: the map [uniqDomains] depends on the certificates only through the
    set of their records: neither the order of the records nor their
    repetition changes it, and with it the result of [getResolvableDomains]
    under a given iteration of the map. *)
Theorem uniqDomains_set_of_certificates
    (mapsKeys : gmap string bool → list string)
    (certificates1 certificates2 : list Certificate) (opts : Opts) (w : World) :
  (∀ c, c ∈ certificates1 ↔ c ∈ certificates2) →
  uniqDomains certificates1 = uniqDomains certificates2 ∧
  getResolvableDomains mapsKeys certificates1 opts w =
    getResolvableDomains mapsKeys certificates2 opts w.
Proof.
  intros Hsame.
  assert (uniqDomains certificates1 = uniqDomains certificates2) as Hmap.
  { apply map_eq. intros x.
    pose proof (uniqDomains_keys certificates1 x) as H1.
    pose proof (uniqDomains_keys certificates2 x) as H2.
    assert (is_Some (uniqDomains certificates1 !! x) ↔
            is_Some (uniqDomains certificates2 !! x)) as Hiff.
    { rewrite H1, H2. by setoid_rewrite Hsame. }
    destruct (uniqDomains certificates1 !! x) as [v1|] eqn:E1,
             (uniqDomains certificates2 !! x) as [v2|] eqn:E2.
    - apply uniqDomains_values in E1, E2. congruence.
    - destruct Hiff as [Hiff _]. by destruct Hiff.
    - destruct Hiff as [_ Hiff]. by destruct Hiff.
    - done. }
  split; [done |].
  unfold getResolvableDomains, extractDomains. by rewrite Hmap.
Qed.

(** [getResolvableDomains] in one equation: what it returns and what it
    leaves of the world *)
Lemma getResolvableDomains_unfold (mapsKeys : gmap string bool → list string)
    (certificates : list Certificate) (opts : Opts) (w : World) :
  getResolvableDomains mapsKeys certificates opts w =
    let wild := (extractDomains mapsKeys certificates).1 in
    let domains := (extractDomains mapsKeys certificates).2 in
    if decide (File opts = "") then ((domains, []), w)
    else
      ((domains,
        match files w !! File opts with
        | Some content =>
            computeDifference domains (candidates wild (parseWords content))
        | None => []
        end), logged (File opts) w).
Proof.
  unfold getResolvableDomains.
  destruct (extractDomains mapsKeys certificates) as [wild domains]. cbn [fst snd].
  destruct (decide (File opts = "")) as [Hfile|Hfile].
  - rewrite Hfile. by rewrite decide_False by (cbn; lia).
  - rewrite decide_True by (destruct (File opts); [done | cbn; lia]).
    unfold mbind, IO_bind.
    destruct (files w !! File opts) as [content|] eqn:Hread.
    + by rewrite (extendWildcardDomains_read _ _ _ _ Hread).
    + by rewrite (extendWildcardDomains_error _ _ _ Hread).
Qed.

Lemma elem_of_partition_wild (domains : list string) (d : string) :
  d ∈ (partitionDomains domains).1 ↔ d ∈ domains ∧ ∃ rest, d = String "*" rest.
Proof.
  rewrite partitionDomains_filter. cbn [fst].
  rewrite list_elem_of_filter, (HasPrefix_byte "*" d). tauto.
Qed.

Lemma elem_of_partition_concrete (domains : list string) (d : string) :
  d ∈ (partitionDomains domains).2 ↔ d ∈ domains ∧ ¬ ∃ rest, d = String "*" rest.
Proof.
  rewrite partitionDomains_filter. cbn [snd].
  rewrite list_elem_of_filter, (HasPrefix_byte "*" d). tauto.
Qed.

Lemma Replace_wildcard (rest word : string) :
  strings.Replace (String "*" rest) "*" word 1 = word +:+ rest.
Proof. apply (Replace_first "*" "" rest word eq_refl). Qed.

(** X2: whatever the order in which the map is iterated, the two lists that
    [getResolvableDomains] returns are the same up to the order of their
    elements, and the same file has been read. *)
Theorem result_up_to_iteration_order
    (mapsKeys1 mapsKeys2 : gmap string bool → list string)
    (certificates : list Certificate) (opts : Opts) (w : World) :
  (∀ m, mapsKeys1 m ≡ₚ (map_to_list m).*1) →
  (∀ m, mapsKeys2 m ≡ₚ (map_to_list m).*1) →
  let result1 := getResolvableDomains mapsKeys1 certificates opts w in
  let result2 := getResolvableDomains mapsKeys2 certificates opts w in
  result1.1.1 ≡ₚ result2.1.1 ∧ result1.1.2 ≡ₚ result2.1.2 ∧ result1.2 = result2.2.
Proof.
  intros Hkeys1 Hkeys2. cbv zeta. rewrite !getResolvableDomains_unfold. cbv zeta.
  assert (mapsKeys1 (uniqDomains certificates) ≡ₚ
          mapsKeys2 (uniqDomains certificates)) as Hkeys.
  { by rewrite Hkeys1, Hkeys2. }
  rewrite !extractDomains_filter. cbn [fst snd].
  set (wild1 := filter (λ d, strings.HasPrefix d "*" = true) (_ <$> mapsKeys1 _)).
  set (wild2 := filter (λ d, strings.HasPrefix d "*" = true) (_ <$> mapsKeys2 _)).
  set (conc1 := filter (λ d, strings.HasPrefix d "*" ≠ true) (_ <$> mapsKeys1 _)).
  set (conc2 := filter (λ d, strings.HasPrefix d "*" ≠ true) (_ <$> mapsKeys2 _)).
  assert (wild1 ≡ₚ wild2) as Hwild by (unfold wild1, wild2; by rewrite Hkeys).
  assert (conc1 ≡ₚ conc2) as Hconc by (unfold conc1, conc2; by rewrite Hkeys).
  case_decide; [done |]. cbn [fst snd]. split_and!; [done | | done].
  destruct (files w !! File opts) as [content|]; [|done].
  rewrite !computeDifference_filter.
  assert (candidates wild1 (parseWords content) ≡ₚ
          candidates wild2 (parseWords content)) as Hcand.
  { unfold candidates. by rewrite Hwild. }
  rewrite Hcand.
  rewrite (list_filter_iff (λ c, c ∉ conc1) (λ c, c ∉ conc2)); [done |].
  intros c. by rewrite Hconc.
Qed.

(** X3: [getResolvableDomains] leaves the files as they are, reads no file
    when [opts.File] is empty, and otherwise reads [opts.File], once, and no
    other file. *)
Theorem reads_only_the_word_list
    (mapsKeys : gmap string bool → list string)
    (certificates : list Certificate) (opts : Opts) (w : World) :
  let result := getResolvableDomains mapsKeys certificates opts w in
  files result.2 = files w ∧
  readLog result.2 =
    readLog w ++ (if decide (File opts = "") then [] else [File opts]) ∧
  (File opts = "" → result.1.2 = []).
Proof.
  cbv zeta. rewrite getResolvableDomains_unfold. cbv zeta.
  case_decide; cbn; [|done]. by rewrite (right_id_L [] (++)).
Qed.

(** X4: when the word list [opts.File] can be read, a string is an extended
    hostname exactly when it is no concrete hostname and it is a word of the
    file followed by what follows the [*] of a wildcard hostname. *)
Theorem extended_hostnames
    (mapsKeys : gmap string bool → list string)
    (certificates : list Certificate) (opts : Opts) (w : World)
    (content x : string) :
  File opts ≠ "" →
  files w !! File opts = Some content →
  let wild := (extractDomains mapsKeys certificates).1 in
  let result := getResolvableDomains mapsKeys certificates opts w in
  x ∈ result.1.2 ↔
  ((x ∉ result.1.1) ∧
   ∃ rest word,
     String "*" rest ∈ wild ∧
     word ∈ strings.TrimSpace <$> strings.Split content nl ∧
     x = word +:+ rest).
Proof.
  intros Hfile Hread. cbv zeta. rewrite getResolvableDomains_unfold. cbv zeta.
  rewrite decide_False by done. cbn [fst snd]. rewrite Hread.
  rewrite computeDifference_filter, list_elem_of_filter, elem_of_candidates.
  rewrite <- parseWords_fmap. split.
  - intros [Hnot (d & word & Hd & Hword & ->)]. split; [done |].
    pose proof Hd as Hstar. unfold extractDomains in Hstar.
    apply elem_of_partition_wild in Hstar as [_ [rest ->]].
    exists rest, word. by rewrite Replace_wildcard.
  - intros [Hnot (rest & word & Hd & Hword & ->)]. split; [done |].
    exists (String "*" rest), word. by rewrite Replace_wildcard.
Qed.

(** X5: a word [*] in the word list makes every wildcard hostname an extended
    hostname, as it is: the extended list is not free of wildcards. *)
Theorem star_word_keeps_wildcards
    (mapsKeys : gmap string bool → list string)
    (certificates : list Certificate) (opts : Opts) (w : World)
    (content d : string) :
  File opts ≠ "" →
  files w !! File opts = Some content →
  "*" ∈ parseWords content →
  d ∈ (extractDomains mapsKeys certificates).1 →
  d ∈ (getResolvableDomains mapsKeys certificates opts w).1.2.
Proof.
  intros Hfile Hread Hstar Hd. rewrite getResolvableDomains_unfold. cbv zeta.
  rewrite decide_False by done. cbn [fst snd]. rewrite Hread.
  rewrite computeDifference_filter, list_elem_of_filter, elem_of_candidates.
  unfold extractDomains in *.
  pose proof Hd as [_ [rest ->]]%elem_of_partition_wild.
  split.
  - intros [_ Hnot]%elem_of_partition_concrete. apply Hnot. by exists rest.
  - exists (String "*" rest), "*". by rewrite Replace_wildcard.
Qed.

(** X6: an empty word-list file is no empty word list: its one word is the
    empty string, so every wildcard hostname gives one candidate, what
    follows its [*], and the extended list holds those that are no concrete
    hostnames, in the order of the wildcards. *)
Theorem empty_word_list_file
    (mapsKeys : gmap string bool → list string)
    (certificates : list Certificate) (opts : Opts) (w : World) :
  File opts ≠ "" →
  files w !! File opts = Some "" →
  let wild := (extractDomains mapsKeys certificates).1 in
  let result := getResolvableDomains mapsKeys certificates opts w in
  parseWords "" = [""] ∧
  result.1.2 =
    filter (λ c, c ∉ (result.1.1)) ((λ d, strings.slice_from 1 d) <$> wild).
Proof.
  intros Hfile Hread. cbv zeta. split; [done |].
  rewrite getResolvableDomains_unfold. cbv zeta.
  rewrite decide_False by done. cbn [fst snd]. rewrite Hread.
  rewrite computeDifference_filter. f_equal.
  change (parseWords "") with [""].
  assert (∀ l : list string,
            Forall (λ d, ∃ rest, d = String "*" rest) l →
            candidates l [""] = (λ d, strings.slice_from 1 d) <$> l) as Hcand.
  { induction 1 as [|d l [rest ->] _ IH]; [done |].
    unfold candidates in *. rewrite bind_cons, IH, fmap_cons. cbn [fmap list_fmap app].
    by rewrite Replace_wildcard. }
  apply Hcand, Forall_forall. intros d Hd. unfold extractDomains in Hd.
  by apply elem_of_partition_wild in Hd as [_ ?].
Qed.

Lemma trimRunes_fixed (runes : list string) (fuel : nat) (s : string) :
  strings.cutRune runes s = None → strings.trimRunes fuel runes s = s.
Proof. intros Hs. destruct fuel; [done |]. cbn. by rewrite Hs. Qed.

(** a string that neither begins nor ends with white space is its own
    trimmed form *)
Lemma TrimSpace_fixed (s : string) :
  (∀ r rest, r ∈ strings.spaceRunes → s ≠ r +:+ rest) →
  (∀ r rest, r ∈ strings.spaceRunes → s ≠ rest +:+ r) →
  strings.TrimSpace s = s.
Proof.
  intros Hfront Hback.
  unfold strings.TrimSpace, strings.TrimLeftSpace, strings.TrimRightSpace.
  rewrite (trimRunes_fixed _ _ s) by (by apply cutRune_None).
  rewrite trimRunes_fixed; [apply string_rev_involutive |].
  apply cutRune_None. intros r' rest (r & -> & Hr)%list_elem_of_fmap Hs.
  apply (Hback r (String.rev rest) Hr).
  by rewrite <- (string_rev_involutive s), Hs, string_rev_app, string_rev_involutive.
Qed.

Lemma TrimSpace_idempotent (s : string) :
  strings.TrimSpace (strings.TrimSpace s) = strings.TrimSpace s.
Proof.
  destruct (TrimSpace_spec s) as (_ & _ & _ & _ & _ & Hfront & Hback).
  by apply TrimSpace_fixed.
Qed.

(** X7: [cleanDomainNames] returns, position by position, each domain name
    without a prefix and a suffix made of white space, and what it returns
    neither begins nor ends with white space. *)
Theorem cleanDomainNames_trims (domains : list string) :
  Forall2 (λ domain clean,
             (∃ leading trailing,
                domain = leading +:+ clean +:+ trailing ∧
                runesOnly strings.spaceRunes leading ∧
                runesOnly strings.spaceRunes trailing) ∧
             (∀ r rest, r ∈ strings.spaceRunes →
                        clean ≠ r +:+ rest ∧ clean ≠ rest +:+ r))
          domains (cleanDomainNames domains).
Proof.
  rewrite cleanDomainNames_fmap. apply Forall2_fmap_r, Forall_Forall2_diag.
  apply Forall_forall. intros d _.
  destruct (TrimSpace_spec d)
    as (leading & trailing & Hd & Hleading & Htrailing & Hfront & Hback).
  split; [by exists leading, trailing |].
  intros r rest Hr. split; [by apply Hfront | by apply Hback].
Qed.

(** X8: cleaning twice is cleaning once, and domain names that neither begin
    nor end with white space are returned as they are. *)
Theorem cleanDomainNames_idempotent (domains : list string) :
  cleanDomainNames (cleanDomainNames domains) = cleanDomainNames domains ∧
  (Forall (λ d, ∀ r rest, r ∈ strings.spaceRunes →
                          d ≠ r +:+ rest ∧ d ≠ rest +:+ r) domains →
   cleanDomainNames domains = domains).
Proof.
  rewrite !cleanDomainNames_fmap. split.
  - rewrite <- list_fmap_compose. apply list_fmap_ext.
    intros i d _. apply TrimSpace_idempotent.
  - intros Hclean. rewrite <- (list_fmap_id domains) at 2.
    apply Forall_fmap_ext_1. eapply Forall_impl; [exact Hclean |].
    intros d Hd. apply TrimSpace_fixed; intros r rest Hr;
      by destruct (Hd r rest Hr).
Qed.

(** X9: [computeDifference] takes [domains] as a set: lists with the same
    elements filter alike; filtering by two lists, one after the other, is
    filtering by both; filtering twice is filtering once; with no domain
    nothing is removed. *)
Theorem computeDifference_algebra (domains1 domains2 potentialDomains : list string) :
  ((∀ d, d ∈ domains1 ↔ d ∈ domains2) →
   computeDifference domains1 potentialDomains =
     computeDifference domains2 potentialDomains) ∧
  computeDifference (domains1 ++ domains2) potentialDomains =
    computeDifference domains1 (computeDifference domains2 potentialDomains) ∧
  computeDifference domains1 (computeDifference domains1 potentialDomains) =
    computeDifference domains1 potentialDomains ∧
  computeDifference [] potentialDomains = potentialDomains.
Proof.
  rewrite !computeDifference_filter. split_and!.
  - intros Hsame. apply list_filter_iff. intros c. by rewrite Hsame.
  - rewrite list_filter_filter. apply list_filter_iff.
    intros c. rewrite not_elem_of_app. tauto.
  - rewrite list_filter_filter. apply list_filter_iff. tauto.
  - induction potentialDomains as [|c l IH]; [done |].
    rewrite filter_cons, decide_True by apply not_elem_of_nil. by rewrite IH.
Qed.

(** X10: [partitionDomains] keeps the order of the domains in either list,
    partitions a concatenation part by part, and leaves a wildcard list and a
    concrete list as they are. *)
Theorem partitionDomains_stable (domains1 domains2 : list string) :
  (partitionDomains domains1).1 `sublist_of` domains1 ∧
  (partitionDomains domains1).2 `sublist_of` domains1 ∧
  partitionDomains (domains1 ++ domains2) =
    ((partitionDomains domains1).1 ++ (partitionDomains domains2).1,
     (partitionDomains domains1).2 ++ (partitionDomains domains2).2) ∧
  partitionDomains (partitionDomains domains1).1 = ((partitionDomains domains1).1, []) ∧
  partitionDomains (partitionDomains domains1).2 = ([], (partitionDomains domains1).2).
Proof.
  rewrite !partitionDomains_filter. cbn [fst snd]. split_and!.
  - apply sublist_filter.
  - apply sublist_filter.
  - by rewrite !filter_app.
  - rewrite !list_filter_filter. f_equal.
    + apply list_filter_iff. tauto.
    + induction domains1 as [|d l IH]; [done |].
      rewrite filter_cons. case_decide as Hd; [by destruct Hd | done].
  - rewrite !list_filter_filter. f_equal.
    + induction domains1 as [|d l IH]; [done |].
      rewrite filter_cons. case_decide as Hd; [by destruct Hd | done].
    + apply list_filter_iff. tauto.
Qed.

(** X11: the extraction holds exactly the trimmed common names and the trimmed
    lines of the name values: each of them, and nothing else; it has as many
    elements as [uniqDomains] has keys, and no duplicate when no two keys have
    the same trimmed form. *)
Theorem extraction_exact (mapsKeys : gmap string bool → list string)
    (certificates : list Certificate) (x : string) :
  (∀ m, mapsKeys m ≡ₚ (map_to_list m).*1) →
  let wild := (extractDomains mapsKeys certificates).1 in
  let concrete := (extractDomains mapsKeys certificates).2 in
  (x ∈ wild ++ concrete ↔
   ∃ c raw, c ∈ certificates ∧
            (raw = CommonName c ∨ raw ∈ strings.Split (NameValue c) nl) ∧
            x = strings.TrimSpace raw) ∧
  length (wild ++ concrete) = size (uniqDomains certificates) ∧
  ((∀ raw1 raw2, is_Some (uniqDomains certificates !! raw1) →
                 is_Some (uniqDomains certificates !! raw2) →
                 strings.TrimSpace raw1 = strings.TrimSpace raw2 → raw1 = raw2) →
   NoDup (wild ++ concrete)).
Proof.
  intros Hkeys. cbv zeta.
  assert ((extractDomains mapsKeys certificates).1 ++
          (extractDomains mapsKeys certificates).2 ≡ₚ
          strings.TrimSpace <$> mapsKeys (uniqDomains certificates)) as Hperm.
  { unfold extractDomains.
    by rewrite partition_permutation, cleanDomainNames_fmap. }
  split_and!.
  - rewrite Hperm, list_elem_of_fmap. split.
    + intros (raw & -> & Hraw).
      apply (elem_of_mapsKeys mapsKeys Hkeys), uniqDomains_keys in Hraw
        as (c & Hc & Hraw).
      by exists c, raw.
    + intros (c & raw & Hc & Hraw & ->). exists raw. split; [done |].
      apply (elem_of_mapsKeys mapsKeys Hkeys), uniqDomains_keys. eauto.
  - rewrite Hperm, length_fmap, (Hkeys (uniqDomains certificates)), length_fmap.
    apply length_map_to_list.
  - by apply extraction_NoDup.
Qed.

End PipelineExtras.

(** * Further properties of the resolution batch *)

Section ResolverExtras.
Import Resolver.

Context {IP : Type}.
Variable IP_String : IP → string.
Variable LookupIP : string → list IP * option error.

Local Abbreviation step := (Resolver.step IP_String LookupIP).
Local Abbreviation batchInv := (Resolver.batchInv IP_String LookupIP).
Local Abbreviation lookUpDns := (Resolver.lookUpDns LookupIP).
Local Abbreviation printed := (Resolver.printed IP_String).
Local Abbreviation line := (Resolver.line IP_String).
Local Abbreviation resolved := (Resolver.resolved LookupIP).
Local Abbreviation printReachableDomains :=
  (Resolver.printReachableDomains IP_String LookupIP).
Local Abbreviation printDomains := (Resolver.printDomains IP_String LookupIP).

Lemma printed_results (plain : bool) (rcv : list (outcome IP)) :
  printed plain rcv = line plain <$> results rcv.
Proof.
  unfold Resolver.printed, results.
  induction rcv as [|[resp|failed] rcv IH]; cbn; by rewrite ?IH.
Qed.

Lemma results_lookUpDns (domain : list string) :
  results (lookUpDns <$> domain) = resolved domain.
Proof.
  unfold results, Resolver.resolved.
  induction domain as [|d l IH]; [done |]. cbn.
  destruct (lookUpDns d); cbn; by rewrite IH.
Qed.

Lemma lookUpDns_failed (d failed : string) : lookUpDns d = inr failed → failed = d.
Proof.
  unfold Resolver.lookUpDns. destruct (LookupIP d) as [ips [e|]]; congruence.
Qed.

Lemma resolved_app (l1 l2 : list string) :
  resolved (l1 ++ l2) = resolved l1 ++ resolved l2.
Proof. apply omap_app. Qed.

Lemma resolved_cons (d : string) (l : list string) :
  resolved (d :: l) =
    match lookUpDns d with inl resp => [resp] | inr _ => [] end ++ resolved l.
Proof. unfold Resolver.resolved. cbn. by destruct (lookUpDns d). Qed.

(** the first loop can run to its end before any goroutine sends *)
Lemma launch_all (plain : bool) (cap : nat) (ds run : list string)
    (c : list (DNSLookupResult IP)) (e : list string) (k : nat)
    (rcv : list (outcome IP)) (out : list string) :
  rtc (step plain cap)
    {| todo := ds; running := run; ch := c; errCh := e; loops := k;
       received := rcv; stdout := out |}
    {| todo := []; running := run ++ ds; ch := c; errCh := e; loops := k;
       received := rcv; stdout := out |}.
Proof.
  revert run. induction ds as [|d ds IH]; intros run.
  - by rewrite (right_id_L [] (++)).
  - eapply rtc_l; [apply step_go |].
    replace (run ++ d :: ds) with ((run ++ [d]) ++ ds)
      by (by rewrite <- (assoc_L (++))).
    apply IH.
Qed.

(** goroutines whose look-ups all fail can send one after the other *)
Lemma send_failures (plain : bool) (cap : nat) (run : list string)
    (c : list (DNSLookupResult IP)) (e : list string) (k : nat)
    (rcv : list (outcome IP)) (out : list string) :
  resolved run = [] → length e + length run ≤ cap →
  rtc (step plain cap)
    {| todo := []; running := run; ch := c; errCh := e; loops := k;
       received := rcv; stdout := out |}
    {| todo := []; running := []; ch := c; errCh := e ++ run; loops := k;
       received := rcv; stdout := out |}.
Proof.
  revert e. induction run as [|d run IH]; intros e Hnone Hcap.
  - by rewrite (right_id_L [] (++)).
  - rewrite resolved_cons in Hnone.
    destruct (lookUpDns d) as [resp|failed] eqn:Hd; [done |].
    pose proof (lookUpDns_failed _ _ Hd) as ->. cbn in Hnone, Hcap.
    eapply rtc_l.
    { apply (step_send_errCh _ _ _ _ _ [] [] d run d); [done | lia]. }
    replace (e ++ d :: run) with ((e ++ [d]) ++ run)
      by (by rewrite <- (assoc_L (++))).
    apply IH; [done |]. rewrite length_app. cbn. lia.
Qed.

(** the goroutines can send so that the results are in [ch] in any order *)
Lemma send_in_order (plain : bool) (cap : nat) (rs : list (DNSLookupResult IP))
    (run : list string) (c : list (DNSLookupResult IP)) (k : nat)
    (rcv : list (outcome IP)) (out : list string) :
  rs ≡ₚ resolved run → length c + length run ≤ cap → length run ≤ cap →
  ∃ failed,
    rtc (step plain cap)
      {| todo := []; running := run; ch := c; errCh := []; loops := k;
         received := rcv; stdout := out |}
      {| todo := []; running := []; ch := c ++ rs; errCh := failed; loops := k;
         received := rcv; stdout := out |} ∧
    length rs + length failed = length run.
Proof.
  revert run c. induction rs as [|r rs IH]; intros run c Hperm Hc Hcap.
  - apply Permutation_nil_l in Hperm. exists run. split; [|done].
    rewrite (right_id_L [] (++)).
    apply (send_failures plain cap run c [] k rcv out); [done | cbn; lia].
  - assert (r ∈ resolved run) as Hr by (rewrite <- Hperm; constructor).
    apply list_elem_of_omap in Hr as (d & Hd & Hresp).
    destruct (lookUpDns d) as [resp|] eqn:Hlookup; [|done].
    injection Hresp as ->.
    apply list_elem_of_split in Hd as (run1 & run2 & ->).
    rewrite resolved_app, resolved_cons, Hlookup in Hperm. cbn in Hperm.
    rewrite <- Permutation_middle in Hperm.
    apply Permutation_cons_inv in Hperm. rewrite <- resolved_app in Hperm.
    rewrite length_app in Hc, Hcap. cbn in Hc, Hcap.
    destruct (IH (run1 ++ run2) (c ++ [r]) Hperm) as (failed & Hrun & Hlen).
    { rewrite !length_app. cbn. lia. }
    { rewrite length_app. lia. }
    exists failed. split.
    + eapply rtc_l.
      { apply (step_send_ch _ _ _ _ _ [] run1 d run2 r); [done | lia]. }
      replace (c ++ r :: rs) with ((c ++ [r]) ++ rs)
        by (by rewrite <- (assoc_L (++))).
      exact Hrun.
    + rewrite !length_app in *. cbn. lia.
Qed.

Lemma receive_ch (plain : bool) (cap : nat) (c : list (DNSLookupResult IP))
    (run e : list string) (k : nat) (rcv : list (outcome IP)) (out : list string) :
  rtc (step plain cap)
    {| todo := []; running := run; ch := c; errCh := e; loops := length c + k;
       received := rcv; stdout := out |}
    {| todo := []; running := run; ch := []; errCh := e; loops := k;
       received := rcv ++ (inl <$> c); stdout := out ++ (line plain <$> c) |}.
Proof.
  revert rcv out. induction c as [|r c IH]; intros rcv out.
  - cbn. by rewrite !(right_id_L [] (++)).
  - eapply rtc_l; [apply step_recv_ch |].
    rewrite !fmap_cons.
    replace (rcv ++ inl r :: (inl <$> c)) with ((rcv ++ [inl r]) ++ (inl <$> c))
      by (by rewrite <- (assoc_L (++))).
    replace (out ++ line plain r :: (line plain <$> c))
      with ((out ++ [line plain r]) ++ (line plain <$> c))
      by (by rewrite <- (assoc_L (++))).
    apply IH.
Qed.

Lemma receive_errCh (plain : bool) (cap : nat) (e : list string)
    (run : list string) (c : list (DNSLookupResult IP)) (k : nat)
    (rcv : list (outcome IP)) (out : list string) :
  rtc (step plain cap)
    {| todo := []; running := run; ch := c; errCh := e; loops := length e + k;
       received := rcv; stdout := out |}
    {| todo := []; running := run; ch := c; errCh := []; loops := k;
       received := rcv ++ (inr <$> e); stdout := out |}.
Proof.
  revert rcv. induction e as [|d e IH]; intros rcv.
  - cbn. by rewrite (right_id_L [] (++)).
  - eapply rtc_l; [apply step_recv_errCh |].
    rewrite fmap_cons.
    replace (rcv ++ inr d :: (inr <$> e)) with ((rcv ++ [inr d]) ++ (inr <$> e))
      by (by rewrite <- (assoc_L (++))).
    apply IH.
Qed.

(** every order of the results is the order of some run *)
Lemma batch_can_print (domain : list string) (plain : bool) (out : list string)
    (rs : list (DNSLookupResult IP)) :
  rs ≡ₚ resolved domain →
  printReachableDomains domain plain out (out ++ (line plain <$> rs)).
Proof.
  intros Hperm.
  destruct (send_in_order plain (length domain) rs domain [] (length domain) [] out)
    as (failed & Hsend & Hlen); [done | cbn; lia | lia |].
  cbn [app] in Hsend.
  exists {| todo := []; running := []; ch := []; errCh := []; loops := 0;
            received := (inl <$> rs) ++ (inr <$> failed);
            stdout := out ++ (line plain <$> rs) |}.
  split; [|by split].
  unfold runs, start.
  etrans; [apply (launch_all plain _ domain []) |]. cbn [app].
  etrans; [exact Hsend |].
  pose proof (receive_ch plain (length domain) rs [] failed (length failed) [] out)
    as Hch.
  pose proof (receive_errCh plain (length domain) failed [] [] 0
                ([] ++ (inl <$> rs)) (out ++ (line plain <$> rs))) as Herr.
  rewrite Hlen in Hch. rewrite Nat.add_0_r in Herr. cbn [app] in Herr.
  by etrans.
Qed.

(** what a call prints is the lines of the results, in the order received *)
Lemma batch_printed_order (domain : list string) (plain : bool)
    (out out' : list string) :
  printReachableDomains domain plain out out' →
  ∃ rs, rs ≡ₚ resolved domain ∧ out' = out ++ (line plain <$> rs).
Proof.
  intros (s & Hruns%batchInv_runs & Hret & <-).
  destruct (returned_batch _ _ _ _ _ _ Hruns Hret)
    as (_ & _ & _ & _ & Hrcv & Hout & _).
  exists (results (received s)). split.
  - rewrite <- results_lookUpDns. unfold results. by rewrite Hrcv.
  - by rewrite Hout, printed_results.
Qed.

(** X12: at every point of every interleaving of a call of
    [printReachableDomains], each hostname is in exactly one place, not yet
    launched, running, in a channel or received, so the second loop has as
    many iterations left as values it has not received; neither channel
    holds more than its capacity; and what is printed is what was printed
    before the call and the lines of the results received, in the order
    received. *)
Theorem batch_invariant (domain : list string) (plain : bool) (out : list string)
    (s : Batch IP) :
  runs IP_String LookupIP domain plain out s →
  received s ++ (inl <$> ch s) ++ (inr <$> errCh s) ++
    (lookUpDns <$> running s) ++ (lookUpDns <$> todo s) ≡ₚ lookUpDns <$> domain ∧
  length (received s) + loops s = length domain ∧
  length (ch s) ≤ length domain ∧ length (errCh s) ≤ length domain ∧
  stdout s = out ++ (line plain <$> results (received s)).
Proof.
  intros (Hcount & Hle & Hperm & Hout)%batchInv_runs.
  pose proof (Permutation_length Hperm) as Hlen.
  rewrite !length_app, !length_fmap in Hlen.
  split_and!; [done | lia | lia | lia |].
  by rewrite Hout, printed_results.
Qed.

(** X13: a goroutine that has been launched never waits to send: at every
    point of every interleaving it can send at once, the result on [ch] or
    the domain on [errCh], as neither channel is full while a goroutine is
    running. *)
Theorem sends_never_wait (domain : list string) (plain : bool) (out : list string)
    (s : Batch IP) (run1 run2 : list string) (d : string) :
  runs IP_String LookupIP domain plain out s →
  running s = run1 ++ d :: run2 →
  length (ch s) < length domain ∧ length (errCh s) < length domain ∧
  ∃ s', step plain (length domain) s s' ∧
        running s' = run1 ++ run2 ∧
        match lookUpDns d with
        | inl resp => ch s' = ch s ++ [resp] ∧ errCh s' = errCh s
        | inr failed => ch s' = ch s ∧ errCh s' = errCh s ++ [failed]
        end.
Proof.
  intros (Hcount & Hle & _ & _)%batchInv_runs Hrun.
  destruct s as [ds run c e k rcv o]. cbn in *. subst run.
  rewrite length_app in Hcount. cbn in Hcount.
  split_and!; [lia | lia |].
  destruct (lookUpDns d) as [resp|failed] eqn:Hd.
  - eexists. split; [apply step_send_ch; [exact Hd | lia] | done].
  - eexists. split; [apply step_send_errCh; [exact Hd | lia] | done].
Qed.

(** X14: the outputs of a call of [printReachableDomains] are exactly these:
    what was printed before, then the lines of the hostnames that resolve,
    in any order; each order is the output of some interleaving, and a call
    can always return. *)
Theorem batch_outputs (domain : list string) (plain : bool) (out out' : list string) :
  printReachableDomains domain plain out out' ↔
  ∃ rs, rs ≡ₚ resolved domain ∧ out' = out ++ (line plain <$> rs).
Proof.
  split.
  - apply batch_printed_order.
  - intros (rs & Hperm & ->). by apply batch_can_print.
Qed.

(** X15: the outputs of [printDomains] are exactly these: what was printed
    before, the lines of the concrete hostnames that resolve, in any order,
    the header when the extended list is not empty and the mode is not plain,
    and the lines of the extended hostnames that resolve, in any order. *)
Theorem printDomains_outputs (domains extendedDomains : list string)
    (plain : bool) (out out' : list string) :
  printDomains domains extendedDomains plain out out' ↔
  ∃ rs1 rs2,
    rs1 ≡ₚ resolved domains ∧ rs2 ≡ₚ resolved extendedDomains ∧
    out' = out ++ (line plain <$> rs1) ++
           (if decide (extendedDomains ≠ [] ∧ plain = false) then [header] else []) ++
           (line plain <$> rs2).
Proof.
  unfold Resolver.printDomains. split.
  - intros (out1 & (rs1 & Hrs1 & ->)%batch_printed_order & Hext).
    exists rs1. destruct extendedDomains as [|d ext].
    + rewrite decide_False in Hext by (cbn; lia). subst out'. exists [].
      rewrite decide_False by (by intros [? _]).
      split_and!; [done | done |]. by rewrite fmap_nil, !(right_id_L [] (++)).
    + rewrite decide_True in Hext by (cbn; lia).
      apply batch_printed_order in Hext as (rs2 & Hrs2 & ->). exists rs2.
      destruct plain.
      * rewrite decide_False by (by intros [_ ?]).
        split_and!; [done | done |]. by rewrite <- (assoc_L (++)).
      * rewrite decide_True by done.
        split_and!; [done | done |]. by rewrite <- !(assoc_L (++)).
  - intros (rs1 & rs2 & Hrs1 & Hrs2 & ->).
    exists (out ++ (line plain <$> rs1)). split; [by apply batch_can_print |].
    destruct extendedDomains as [|d ext].
    + rewrite decide_False by (cbn; lia).
      rewrite decide_False by (by intros [? _]).
      apply Permutation_nil_r in Hrs2 as ->.
      by rewrite fmap_nil, !(right_id_L [] (++)).
    + rewrite decide_True by (cbn; lia). destruct plain.
      * rewrite decide_False by (by intros [_ ?]). cbn [app].
        rewrite (assoc_L (++)). by apply batch_can_print.
      * rewrite decide_True by done.
        rewrite !(assoc_L (++)). by apply batch_can_print.
Qed.

(** X16: in plain mode [printDomains] prints nothing but hostnames, each
    followed by a line break: hostnames of the two lists whose look-up
    succeeded, as many lines as there are such hostnames, and no header. *)
Theorem plain_output_is_hostnames (domains extendedDomains : list string)
    (out out' : list string) :
  printDomains domains extendedDomains true out out' →
  ∃ lines,
    out' = out ++ lines ∧
    length lines = length (resolved domains) + length (resolved extendedDomains) ∧
    Forall (λ l, ∃ d ips, d ∈ domains ++ extendedDomains ∧
                          LookupIP d = (ips, None) ∧ l = d +:+ nl) lines.
Proof.
  unfold Resolver.printDomains.
  intros (out1 & (rs1 & Hrs1 & ->)%batch_printed_order & Hext).
  assert (∀ l rs, rs ≡ₚ resolved l →
            Forall (λ ln, ∃ d ips, d ∈ l ∧ LookupIP d = (ips, None) ∧
                                   ln = d +:+ nl) (line true <$> rs)) as Hlines.
  { intros l rs Hrs. apply Forall_fmap, Forall_forall. intros resp Hresp.
    rewrite Hrs in Hresp. apply elem_of_resolved in Hresp as [Hd Hlookup].
    by exists (Domain resp), (Ips resp). }
  destruct extendedDomains as [|d ext].
  - rewrite decide_False in Hext by (cbn; lia). subst out'.
    exists (line true <$> rs1). rewrite (right_id_L [] (++)).
    split_and!; [done | |].
    + rewrite length_fmap, Hrs1. cbn. lia.
    + by apply Hlines.
  - rewrite decide_True in Hext by (cbn; lia).
    apply batch_printed_order in Hext as (rs2 & Hrs2 & ->).
    exists ((line true <$> rs1) ++ (line true <$> rs2)). split_and!.
    + by rewrite <- (assoc_L (++)).
    + by rewrite length_app, !length_fmap, Hrs1, Hrs2.
    + apply Forall_app. split.
      * eapply Forall_impl; [by apply Hlines |].
        intros ln (d' & ips & Hd' & ? & ?). exists d', ips.
        split_and!; [|done..]. apply elem_of_app. by left.
      * eapply Forall_impl; [by apply Hlines |].
        intros ln (d' & ips & Hd' & ? & ?). exists d', ips.
        split_and!; [|done..]. apply elem_of_app. by right.
Qed.


End ResolverExtras.

(** * The request *)

Section RequestFacts.

Lemma upperhex_kept (c : ascii) :
  url.shouldEscape (url.upperhex (nat_of_ascii c / 16)) = false ∧
  url.shouldEscape (url.upperhex (nat_of_ascii c mod 16)) = false.
Proof. destruct c as [[] [] [] [] [] [] [] []]; by vm_compute. Qed.

Lemma QueryEscape_bytes (s : string) (c : ascii) :
  occurs c (url.QueryEscape s) = true →
  url.shouldEscape c = false ∨ c = "%"%char ∨ c = "+"%char.
Proof.
  induction s as [|a s IH]; cbn [url.QueryEscape]; [done |].
  destruct (upperhex_kept a) as [Hhi Hlo].
  repeat case_decide; cbn [occurs]; repeat case_decide; subst; auto.
  destruct (url.shouldEscape a) eqn:Ha; cbn [occurs];
    repeat case_decide; subst; auto.
Qed.

Lemma QueryEscape_length (s : string) :
  String.length s ≤ String.length (url.QueryEscape s) ≤ 3 * String.length s.
Proof.
  induction s as [|a s IH]; cbn [url.QueryEscape]; [cbn; lia |].
  case_decide; [|destruct (url.shouldEscape a)]; cbn [String.length]; lia.
Qed.

(** X17: what [url.QueryEscape] returns is made of letters, digits and the
    bytes [-], [_], [.], [~], [%] and [+]: it has no [&], [=], [?], [#], [/]
    and no space; it is at least as long as the string and at most three
    times as long, and a string of letters, digits, [-], [_], [.] and [~] is
    returned as it is. *)
Theorem QueryEscape_alphabet (s : string) :
  (∀ c, occurs c (url.QueryEscape s) = true →
        url.shouldEscape c = false ∨ c = "%"%char ∨ c = "+"%char) ∧
  Forall (λ c, occurs c (url.QueryEscape s) = false)
    ["&"%char; "="%char; "?"%char; "#"%char; "/"%char; " "%char] ∧
  String.length s ≤ String.length (url.QueryEscape s) ≤ 3 * String.length s ∧
  ((∀ c, occurs c s = true → url.shouldEscape c = false) → url.QueryEscape s = s).
Proof.
  split; [apply QueryEscape_bytes |]. split; [|split; [apply QueryEscape_length |]].
  - repeat constructor;
      match goal with
      | |- occurs ?c _ = false =>
          destruct (occurs c (url.QueryEscape s)) eqn:Hc; [|done];
          by destruct (QueryEscape_bytes _ _ Hc) as [?|[?|?]]
      end.
  - induction s as [|a s IH]; intros Hs; cbn [url.QueryEscape]; [done |].
    assert (url.shouldEscape a = false) as Ha.
    { apply Hs. cbn. by case_decide. }
    case_decide as Hspace; [by subst a |]. rewrite Ha. f_equal. apply IH.
    intros c Hc. apply Hs. cbn. case_decide; [done | exact Hc].
Qed.

Lemma add_all (l : list (string * string)) (m : gmap string (list string))
    (k : string) :
  NoDup l.*1 → (∀ k', k' ∈ l.*1 → m !! k' = None) →
  foldl (λ urlValues '(key, value), url.Add urlValues key value) m l !! k =
    match (list_to_map l : gmap string string) !! k with
    | Some v => Some [v]
    | None => m !! k
    end.
Proof.
  revert m. induction l as [|[k0 v0] l IH]; intros m Hnodup Hfresh; [done |].
  cbn in Hnodup. apply NoDup_cons in Hnodup as [Hk0 Hnodup].
  cbn [foldl]. unfold url.Add at 2.
  rewrite (Hfresh k0) by (cbn; constructor). cbn [default app].
  rewrite IH; [|done|].
  - cbn [list_to_map foldr uncurry]. destruct (decide (k = k0)) as [->|Hne].
    + rewrite lookup_insert_eq.
      rewrite (not_elem_of_list_to_map_1 (M:=gmap string) l k0 Hk0).
      by rewrite lookup_insert_eq.
    + by rewrite !lookup_insert_ne by done.
  - intros k' Hk'. rewrite lookup_insert_ne by (intros ->; done).
    apply Hfresh. cbn. by constructor.
Qed.

Section Orders.

Variable rangeParams : gmap string string → list (string * string).
Variable rangeKeys : gmap string (list string) → list string.
Hypothesis rangeParams_perm : ∀ m, rangeParams m ≡ₚ map_to_list m.
Hypothesis rangeKeys_perm : ∀ m, rangeKeys m ≡ₚ (map_to_list m).*1.

(** the values [fetchResource] builds: one value for each parameter *)
Lemma urlValues_of_params (params : gmap string string) :
  foldl (λ urlValues '(key, value), url.Add urlValues key value)
        ∅ (rangeParams params) = (λ v, [v]) <$> params.
Proof.
  apply map_eq. intros k. rewrite add_all, lookup_fmap.
  - rewrite (list_to_map_proper (rangeParams params) (map_to_list params)),
      list_to_map_to_list; [by destruct (params !! k) | | done].
    rewrite (rangeParams_perm params). apply NoDup_fst_map_to_list.
  - rewrite (rangeParams_perm params). apply NoDup_fst_map_to_list.
  - intros k' _. apply lookup_empty.
Qed.

Lemma sorted_keys (v : gmap string (list string)) :
  merge_sort String.le (rangeKeys v) = merge_sort String.le (map_to_list v).*1.
Proof.
  apply (Sorted_unique String.le); [apply Sorted_merge_sort, _..|].
  by rewrite !merge_sort_Permutation.
Qed.

(** X18: the URL of the request does not depend on the order in which Go
    iterates over the parameters and over the keys of the values; without
    parameters it is the URL given; and for the parameters of [execute] it is
    [https://crt.sh?excluded=expired&output=json&q=] followed by the escaped
    domain. *)
Theorem request_URL (u : string) (params : gmap string string) (opts : Opts) :
  requestURL rangeParams rangeKeys u params =
    requestURL map_to_list (λ v, (map_to_list v).*1) u params ∧
  requestURL rangeParams rangeKeys u ∅ = u ∧
  requestURL rangeParams rangeKeys "https://crt.sh" (queryParams opts) =
    "https://crt.sh?excluded=expired&output=json&q=" +:+
    url.QueryEscape (Domain opts).
Proof.
  assert (∀ u params,
            requestURL rangeParams rangeKeys u params =
            requestURL map_to_list (λ v, (map_to_list v).*1) u params) as Horder.
  { intros u' params'. unfold requestURL. rewrite urlValues_of_params.
    assert (foldl (λ urlValues '(key, value), url.Add urlValues key value)
                  ∅ (map_to_list params') = (λ v, [v]) <$> params') as ->.
    { apply map_eq. intros k. rewrite add_all, lookup_fmap.
      - rewrite list_to_map_to_list. by destruct (params' !! k).
      - apply NoDup_fst_map_to_list.
      - intros k' _. apply lookup_empty. }
    unfold url.Encode. by rewrite sorted_keys. }
  split_and!; [apply Horder | |].
  - rewrite Horder. unfold requestURL. rewrite map_to_list_empty. cbn.
    apply string_app_nil_r.
  - rewrite Horder. reflexivity.
Qed.

End Orders.

End RequestFacts.

(** * The fetch and [execute] *)

Section ExecuteFacts.

Context {Err IP : Type}.
Variable client_Do : string → Response Err * option Err.
Variable Unmarshal : string → list Certificate * option Err.
Variable rangeParams : gmap string string → list (string * string).
Variable rangeKeys : gmap string (list string) → list string.
Variable mapsKeys : gmap string bool → list string.
Variable IP_String : IP → string.
Variable LookupIP : string → list IP * option error.

Local Abbreviation step := (fetchStep client_Do).
Local Abbreviation next := (fetchNext client_Do).
Local Abbreviation outcome := (fetchOutcome client_Do).
Local Abbreviation final := (fetchFinal client_Do).
Local Abbreviation run :=
  (execute client_Do Unmarshal rangeParams rangeKeys mapsKeys IP_String LookupIP).

(** the steps are those of [fetchNext]: a state has at most one *)
Lemma fetchStep_next (u : string) (st st' : Fetcher Err * Selector Err) :
  step u st st' ↔ next u st = Some st'.
Proof.
  split.
  - intros Hstep.
    destruct Hstep as [resp err m HDo | resp body m HDo HRead
                      | resp body err m HDo HRead | resp body | err
                      | resp m HClose | resp err m HClose];
      cbn; rewrite ?HDo, ?HRead, ?HClose; done.
  - destruct st as [f m]. destruct f as [|resp body|resp|err|]; cbn.
    + destruct (client_Do u) as [resp [e|]] eqn:HDo.
      * intros [= <-]. by eapply fetch_do_err.
      * destruct (Body_ReadAll resp) as [body [e|]] eqn:HRead; intros [= <-].
        -- by eapply fetch_read_err.
        -- by eapply fetch_read.
    + destruct m; [|done..]. intros [= <-]. constructor.
    + destruct (Body_Close resp) as [e|] eqn:HClose; intros [= <-].
      * by apply fetch_close_err.
      * by apply fetch_close.
    + destruct m; [|done..]. intros [= <-]. constructor.
    + done.
Qed.

Lemma rtc_next (u : string) (st st' : Fetcher Err * Selector Err) :
  rtc (step u) st st' →
  st' = st ∨ ∃ st1, next u st = Some st1 ∧ rtc (step u) st1 st'.
Proof.
  intros Hrtc. apply rtc_inv in Hrtc as [->|(st1 & Hstep%fetchStep_next & Hrtc)];
    eauto.
Qed.

(** Every run of the fetch is a beginning of the one run there is, which
    ends with the goroutine at [fetchFinal] and [execute] in the case
    [fetchOutcome]. *)
Lemma fetch_runs (u : string) (f : Fetcher Err) (m : Selector Err) :
  rtc (step u) (FetchStart, Select) (f, m) →
  (m = Select ∨ m = outcome u) ∧
  rtc (step u) (f, m) (final u, outcome u) ∧
  (f = FetchEnd → m = outcome u ∧ final u = FetchEnd).
Proof.
  unfold fetchOutcome, fetchFinal. intros Hrun.
  destruct (client_Do u) as [resp [e|]] eqn:HDo;
    [|destruct (Body_ReadAll resp) as [body [e|]] eqn:HRead;
      [|destruct (Body_Close resp) as [e|] eqn:HClose]];
    repeat (apply rtc_next in Hrun as [Hrun|(st1 & Hnext & Hrun)];
            [injection Hrun as -> ->
            |cbn in Hnext; rewrite ?HDo, ?HRead, ?HClose in Hnext;
             try discriminate Hnext; injection Hnext as <-]);
    (split_and!; [auto | | done || (intros [=]; auto)]);
    repeat first
      [ apply rtc_refl
      | eapply rtc_l;
        [apply fetchStep_next; cbn; rewrite ?HDo, ?HRead, ?HClose; reflexivity |] ].
Qed.

Lemma fetch_final_stuck (u : string) : next u (final u, outcome u) = None.
Proof.
  unfold fetchOutcome, fetchFinal.
  destruct (client_Do u) as [resp [e|]]; [done |].
  destruct (Body_ReadAll resp) as [body [e|]]; [done |].
  by destruct (Body_Close resp).
Qed.

Lemma fetch_outcome_taken (u : string) : outcome u ≠ Select.
Proof.
  unfold fetchOutcome. destruct (client_Do u) as [resp [e|]]; [done |].
  by destruct (Body_ReadAll resp) as [body [e|]].
Qed.

Lemma nsteps_first {A} (R : relation A) (n : nat) (x z : A) :
  nsteps R (S n) x z → ∃ y, R x y ∧ nsteps R n y z.
Proof. inversion 1; eauto. Qed.

Lemma fetch_no_fourth_step (u : string) (st : Fetcher Err * Selector Err) :
  ¬ nsteps (step u) 4 (FetchStart, Select) st.
Proof.
  intros Hrun.
  destruct (client_Do u) as [resp [e|]] eqn:HDo;
    [|destruct (Body_ReadAll resp) as [body [e|]] eqn:HRead;
      [|destruct (Body_Close resp) as [e|] eqn:HClose]];
    repeat (apply nsteps_first in Hrun as (st1 & Hnext%fetchStep_next & Hrun);
            cbn in Hnext; rewrite ?HDo, ?HRead, ?HClose in Hnext;
            try discriminate Hnext; injection Hnext as <-).
Qed.

(** X19: the fetch has one run: the [select] of [execute] takes one case, the
    one [client.Do] and [io.ReadAll] decide; every run is a beginning of that
    run and can be completed; it stops after three steps at most, and then
    the goroutine of [fetchResource] has ended, or it stays at
    [errorCh <- err] with the error of [resp.Body.Close()]. *)
Theorem fetch_has_one_run (u : string) (f : Fetcher Err) (m : Selector Err) :
  rtc (step u) (FetchStart, Select) (f, m) →
  (m = Select ∨ m = outcome u) ∧
  outcome u ≠ Select ∧
  rtc (step u) (f, m) (final u, outcome u) ∧
  (∀ st, ¬ step u (final u, outcome u) st) ∧
  (∀ n st, nsteps (step u) n (FetchStart, Select) st → n ≤ 3) ∧
  (final u = FetchEnd ∨
   ∃ resp body e, client_Do u = (resp, None) ∧ Body_ReadAll resp = (body, None) ∧
                  Body_Close resp = Some e ∧ final u = FetchSendErr e).
Proof.
  intros Hrun. destruct (fetch_runs u f m Hrun) as (Hm & Hfinal & _).
  split_and!; [done | apply fetch_outcome_taken | done | | |].
  - intros st Hstep%fetchStep_next. by rewrite fetch_final_stuck in Hstep.
  - intros n st Hn. destruct (decide (n ≤ 3)) as [|Hgt]; [done | exfalso].
    replace n with (4 + (n - 4)) in Hn by lia.
    apply nsteps_add_inv in Hn as (st4 & Hfour & _).
    by apply fetch_no_fourth_step in Hfour.
  - unfold fetchFinal.
    destruct (client_Do u) as [resp [e|]] eqn:HDo; [by left |].
    destruct (Body_ReadAll resp) as [body [e|]] eqn:HRead; [by left |].
    destruct (Body_Close resp) as [e|] eqn:HClose; [right | by left].
    by exists resp, body, e.
Qed.

(** X20: when the body has been read and sent, an error of
    [resp.Body.Close()] is never received: [execute] has taken the case of
    the body and receives nothing more, and the goroutine of [fetchResource]
    stays at [errorCh <- err] and never ends. *)
Theorem close_error_is_never_received (u : string) (resp : Response Err)
    (body : string) (e : Err) :
  client_Do u = (resp, None) →
  Body_ReadAll resp = (body, None) →
  Body_Close resp = Some e →
  rtc (step u) (FetchStart, Select) (FetchSendErr e, CaseResp body) ∧
  (∀ st, ¬ step u (FetchSendErr e, CaseResp body) st) ∧
  (∀ f m, rtc (step u) (FetchStart, Select) (f, m) →
          f ≠ FetchEnd ∧ (∀ e', m ≠ CaseErr e') ∧
          rtc (step u) (f, m) (FetchSendErr e, CaseResp body)).
Proof.
  intros HDo HRead HClose.
  assert (final u = FetchSendErr e) as Hfinal.
  { unfold fetchFinal. by rewrite HDo, HRead, HClose. }
  assert (outcome u = CaseResp body) as Houtcome.
  { unfold fetchOutcome. by rewrite HDo, HRead. }
  split_and!.
  - destruct (fetch_runs u FetchStart Select) as (_ & Hrun & _); [done |].
    by rewrite Hfinal, Houtcome in Hrun.
  - intros st Hstep%fetchStep_next. done.
  - intros f m Hrun. destruct (fetch_runs u f m Hrun) as (Hm & Hrest & Hend).
    rewrite Hfinal, Houtcome in *. split_and!; [| | done].
    + intros Hf. by destruct (Hend Hf).
    + intros e' ->. by destruct Hm.
Qed.


(** X22: when [execute] returns an error, it is the error of [client.Do], of
    [io.ReadAll] or of [json.Unmarshal]; no file has been read, so the word
    list has not been, no hostname has been looked up or printed, and what is
    printed is nothing, or the body and a line break when the decoding
    failed. *)
Theorem execute_error (opts : Opts) (w w' : World) (out out' : list string)
    (e : Err) :
  let u := requestURL rangeParams rangeKeys "https://crt.sh" (queryParams opts) in
  run opts w out (Some e, w', out') →
  w' = w ∧
  ((∃ resp, client_Do u = (resp, Some e) ∧ out' = out) ∨
   (∃ resp body, client_Do u = (resp, None) ∧
                 Body_ReadAll resp = (body, Some e) ∧ out' = out) ∨
   (∃ resp body certificates,
      client_Do u = (resp, None) ∧ Body_ReadAll resp = (body, None) ∧
      Unmarshal body = (certificates, Some e) ∧ out' = out ++ [body +:+ nl])).
Proof.
  cbv zeta.
  set (u := requestURL rangeParams rangeKeys "https://crt.sh" (queryParams opts)).
  unfold execute. fold u. intros (f & m & Hrun & Hm).
  destruct (fetch_runs u f m Hrun) as ([-> | ->] & _); [done |].
  unfold fetchOutcome in Hm.
  destruct (client_Do u) as [resp [e1|]] eqn:HDo.
  { injection Hm as -> -> ->. split; [done |]. left. by exists resp. }
  destruct (Body_ReadAll resp) as [body [e1|]] eqn:HRead.
  { injection Hm as -> -> ->. split; [done |]. right. left. by exists resp, body. }
  destruct (Unmarshal body) as [certificates [e1|]] eqn:Hdecode.
  { injection Hm as -> -> ->. split; [done |]. right. right.
    by exists resp, body, certificates. }
  destruct (getResolvableDomains mapsKeys certificates opts w) as [[domains ext] w1].
  by destruct Hm as (out1 & _ & [=]).
Qed.

End ExecuteFacts.

(** * The further properties at concrete inputs *)

Section ExtraInstances.
Import Resolver.

Ltac decided :=
  match goal with |- ?P => apply (bool_decide_unpack P); by vm_compute end.

Lemma uniqDomains_set_witness :
  uniqDomains [certificate "a.com" "b.com"; certificate "c.com" "a.com"] =
  uniqDomains [certificate "c.com" "a.com"; certificate "a.com" "b.com";
               certificate "c.com" "a.com"].
Proof.
  refine (proj1 (uniqDomains_set_of_certificates keysInOrder _ _ (options "")
                   (world []) _)).
  intros c. rewrite !elem_of_cons, !elem_of_nil. tauto.
Defined.

Lemma reverse_keys_perm (m : gmap string bool) :
  reverse (keysInOrder m) ≡ₚ (map_to_list m).*1.
Proof. apply reverse_Permutation. Defined.

Lemma iteration_order_witness :
  let certificates :=
    [certificate "*.example.com" ("www.example.com" +:+ nl +:+ "mail.example.com")] in
  let w := world [("words.txt", "api" +:+ nl +:+ "shop")] in
  (getResolvableDomains keysInOrder certificates (options "words.txt") w).1.1 ≡ₚ
  (getResolvableDomains (λ m, reverse (keysInOrder m)) certificates
     (options "words.txt") w).1.1.
Proof.
  cbv zeta.
  exact (proj1 (result_up_to_iteration_order keysInOrder
                  (λ m, reverse (keysInOrder m)) _ (options "words.txt") _
                  keysInOrder_perm reverse_keys_perm)).
Defined.

Lemma extended_hostnames_witness :
  "api.example.com" ∈
    (getResolvableDomains keysInOrder
       [certificate "*.example.com" "www.example.com"] (options "words.txt")
       (world [("words.txt", "api" +:+ nl +:+ "www")])).1.2.
Proof.
  apply (extended_hostnames keysInOrder
           [certificate "*.example.com" "www.example.com"] (options "words.txt")
           (world [("words.txt", "api" +:+ nl +:+ "www")])
           ("api" +:+ nl +:+ "www") "api.example.com");
    [done | reflexivity |].
  split; [decided |].
  exists ".example.com", "api". split_and!; [decided | decided | reflexivity].
Defined.

Lemma star_word_witness :
  "*.example.com" ∈
    (getResolvableDomains keysInOrder
       [certificate "*.example.com" "www.example.com"] (options "words.txt")
       (world [("words.txt", "api" +:+ nl +:+ " * ")])).1.2.
Proof.
  apply (star_word_keeps_wildcards keysInOrder
           [certificate "*.example.com" "www.example.com"] (options "words.txt")
           (world [("words.txt", "api" +:+ nl +:+ " * ")])
           ("api" +:+ nl +:+ " * ") "*.example.com");
    [done | reflexivity | decided | decided].
Defined.

Lemma empty_word_list_witness :
  (getResolvableDomains keysInOrder
     [certificate "*.example.com" "www.example.com"] (options "words.txt")
     (world [("words.txt", "")])).1.2 = [".example.com"].
Proof.
  destruct (empty_word_list_file keysInOrder
              [certificate "*.example.com" "www.example.com"] (options "words.txt")
              (world [("words.txt", "")])) as [_ Hext];
    [done | reflexivity |].
  etrans; [exact Hext | reflexivity].
Defined.

Lemma extraction_exact_witness :
  length ((extractDomains keysInOrder [certificate "a.com" "a.com "]).1 ++
          (extractDomains keysInOrder [certificate "a.com" "a.com "]).2) =
    size (uniqDomains [certificate "a.com" "a.com "]).
Proof.
  exact (proj1 (proj2 (extraction_exact keysInOrder
                         [certificate "a.com" "a.com "] "" keysInOrder_perm))).
Defined.

Ltac go1 := eapply rtc_l; [apply step_go |].
Ltac send1 :=
  eapply rtc_l;
  [ first [ eapply (step_send_ch _ _ _ _ _ _ []); [reflexivity | cbn; lia]
          | eapply (step_send_errCh _ _ _ _ _ _ []); [reflexivity | cbn; lia] ] |].
Ltac receive1 :=
  eapply rtc_l; [first [apply step_recv_ch | apply step_recv_errCh] |].

Lemma batch_invariant_witness :
  let LookupIP := hostsTable [("a.example.com", ["10.0.0.1"])] in
  let s := {| todo := ["b.example.com"]; running := []; errCh := [];
              ch := [{| Domain := "a.example.com"; Ips := ["10.0.0.1"] |}];
              loops := 2; received := []; stdout := [] |} in
  runs id LookupIP ["a.example.com"; "b.example.com"] false [] s ∧
  length (received s) + loops s = 2.
Proof.
  cbv zeta.
  assert (runs id (hostsTable [("a.example.com", ["10.0.0.1"])])
            ["a.example.com"; "b.example.com"] false []
            {| todo := ["b.example.com"]; running := []; errCh := [];
               ch := [{| Domain := "a.example.com"; Ips := ["10.0.0.1"] |}];
               loops := 2; received := []; stdout := [] |}) as Hruns.
  { unfold runs, start. go1. send1. apply rtc_refl. }
  split; [exact Hruns |].
  exact (proj1 (proj2 (batch_invariant _ _ _ _ _ _ Hruns))).
Defined.

Lemma sends_never_wait_witness :
  let LookupIP := hostsTable [("a.example.com", ["10.0.0.1"])] in
  let s := {| todo := []; running := ["a.example.com"; "b.example.com"];
              ch := []; errCh := []; loops := 2; received := []; stdout := [] |} in
  runs id LookupIP ["a.example.com"; "b.example.com"] false [] s ∧
  length (errCh s) < 2.
Proof.
  cbv zeta.
  assert (runs id (hostsTable [("a.example.com", ["10.0.0.1"])])
            ["a.example.com"; "b.example.com"] false []
            {| todo := []; running := ["a.example.com"; "b.example.com"];
               ch := []; errCh := []; loops := 2; received := [];
               stdout := [] |}) as Hruns.
  { unfold runs, start. go1. go1. apply rtc_refl. }
  split; [exact Hruns |].
  exact (proj1 (proj2 (sends_never_wait _ _ _ _ _ _ ["a.example.com"] []
                         "b.example.com" Hruns eq_refl))).
Defined.

Lemma plain_output_witness :
  let LookupIP := hostsTable [("a.example.com", ["10.0.0.1"])] in
  printDomains id LookupIP ["a.example.com"] ["b.example.com"] true []
    ["a.example.com" +:+ nl] ∧
  ∃ lines, ["a.example.com" +:+ nl] = [] ++ lines ∧ length lines = 1 + 0.
Proof.
  cbv zeta.
  assert (printDomains id (hostsTable [("a.example.com", ["10.0.0.1"])])
            ["a.example.com"] ["b.example.com"] true []
            ["a.example.com" +:+ nl]) as Hprint.
  { exists ["a.example.com" +:+ nl]. split.
    - eexists. split.
      + unfold runs, start. go1. send1. receive1. apply rtc_refl.
      + split; [by split | reflexivity].
    - rewrite decide_True by (cbn; lia). eexists. split.
      + unfold runs, start. go1. send1. receive1. apply rtc_refl.
      + split; [by split | reflexivity]. }
  split; [exact Hprint |].
  destruct (plain_output_is_hostnames _ _ _ _ _ _ Hprint) as (lines & Hout & Hlen & _).
  exists lines. split; [exact Hout | exact Hlen].
Defined.

Lemma map_to_list_perm (m : gmap string string) : map_to_list m ≡ₚ map_to_list m.
Proof. reflexivity. Defined.

Lemma fst_map_to_list_perm (v : gmap string (list string)) :
  (map_to_list v).*1 ≡ₚ (map_to_list v).*1.
Proof. reflexivity. Defined.

Lemma request_URL_witness :
  requestURL (λ m, reverse (map_to_list m)) (λ v, reverse (map_to_list v).*1)
    "https://crt.sh"
    (queryParams (optionsFor "ex ample.com&x=1" "")) =
  "https://crt.sh?excluded=expired&output=json&q=ex+ample.com%26x%3D1".
Proof.
  refine (proj2 (proj2 (request_URL (λ m, reverse (map_to_list m))
                          (λ v, reverse (map_to_list v).*1) _ _
                          "" ∅ _))).
  - intros m. apply reverse_Permutation.
  - intros v. apply reverse_Permutation.
Defined.

Lemma fetch_run_witness :
  rtc (fetchStep (respond "[]" None) "https://crt.sh?q=a")
    (FetchStart, Select) (FetchClose {| Body_ReadAll := ("[]", None);
                                        Body_Close := None |}, CaseResp "[]") ∧
  fetchOutcome (respond "[]" None) "https://crt.sh?q=a" ≠ Select.
Proof.
  assert (rtc (fetchStep (respond "[]" None) "https://crt.sh?q=a")
            (FetchStart, Select)
            (FetchClose {| Body_ReadAll := ("[]", None); Body_Close := None |},
             CaseResp "[]")) as Hrun.
  { eapply rtc_l; [by eapply fetch_read |].
    eapply rtc_l; [apply receive_body |]. apply rtc_refl. }
  split; [exact Hrun |].
  exact (proj1 (proj2 (fetch_has_one_run _ _ _ _ Hrun))).
Defined.

Lemma close_error_witness :
  rtc (fetchStep (respond "[]" (Some "closed twice")) "https://crt.sh?q=a")
    (FetchStart, Select) (FetchSendErr "closed twice", CaseResp "[]").
Proof.
  exact (proj1 (close_error_is_never_received
                  (respond "[]" (Some "closed twice")) "https://crt.sh?q=a"
                  _ "[]" "closed twice" eq_refl eq_refl eq_refl)).
Defined.

Lemma execute_error_witness :
  execute unreachable (λ _, ([], None)) map_to_list (λ v, (map_to_list v).*1)
    keysInOrder id (hostsTable []) (options "words.txt")
    (world [("words.txt", "api")]) []
    (Some "no route to host", world [("words.txt", "api")], []) ∧
  world [("words.txt", "api")] = world [("words.txt", "api")].
Proof.
  assert (execute unreachable (λ _, ([], None)) map_to_list
            (λ v, (map_to_list v).*1) keysInOrder id (hostsTable [])
            (options "words.txt") (world [("words.txt", "api")]) []
            (Some "no route to host", world [("words.txt", "api")], []))
    as Hexecute.
  { exists FetchEnd, (CaseErr "no route to host"). split; [|reflexivity].
    eapply rtc_l; [by eapply fetch_do_err |].
    eapply rtc_l; [apply receive_err |]. apply rtc_refl. }
  split; [exact Hexecute |].
  exact (proj1 (execute_error _ _ _ _ _ _ _ _ _ _ _ _ _ Hexecute)).
Defined.

End ExtraInstances.
